(** * LogJoin: the sessionizer of [src/logjoin/LogJoin.cc]

    A shallow embedding of [cm::LogJoin]: the pipe-wrapper parser, the main
    ingress [insertLogline], [appendToSession], [flush], [flushSession],
    [onSession] and [importTimeoutList], over an ordered key-value
    transaction, an in-memory map of flush deadlines and the statistics
    counters.

    Conventions.
    - [std::string] and [Buffer] are byte strings: [string].
    - [uint64_t] values are [Z] with the wrap-around [wrap64] written out.
    - The statistics counters are natural numbers.
    - Exceptions are explicit: every operation returns [Ok] or [Raise]
      together with the state it leaves behind.
    - The shard, the join target, the random generator, the query-string
      parser and the idle timeout are the fields of [Env]; the transaction
      handed to every call is the field [txn] of the state. *)

From Stdlib Require Import ZArith NArith Ascii Lia Bool.
From stdpp Require Import base option list gmap strings.

Local Open Scope Z_scope.

(** Let [simpl] unfold the concatenation of byte strings on a constructor. *)
#[local] Arguments String.append !_ _ / : simpl nomatch.

(* ===================================================================== *)
(** ** Byte strings *)
(* ===================================================================== *)

Module Str.

(** [s.length()] *)
Fixpoint length (s : string) : nat :=
  match s with
  | EmptyString => O
  | String _ s' => S (length s')
  end.

(** [StringUtil::beginsWith(s, prefix)] *)
Fixpoint beginsWith (s prefix : string) {struct prefix} : bool :=
  match prefix, s with
  | EmptyString, _ => true
  | String _ _, EmptyString => false
  | String p prefix', String c s' =>
      if Ascii.eqb c p then beginsWith s' prefix' else false
  end.

(** [StringUtil::endsWith(s, suffix)]: the suffix is compared with the
    last [suffix.size()] bytes of [s]. *)
Fixpoint endsWith (s suffix : string) : bool :=
  if String.eqb s suffix then true
  else match s with
       | EmptyString => false
       | String _ s' => endsWith s' suffix
       end.

(** [s.find(c)] for a one-byte needle: the offset of the first
    occurrence, [None] standing for [std::string::npos]. *)
Fixpoint find (s : string) (c : ascii) : option nat :=
  match s with
  | EmptyString => None
  | String d s' =>
      if Ascii.eqb d c then Some O
      else match find s' c with
           | Some i => Some (S i)
           | None => None
           end
  end.

(** The bytes of [s] from offset [pos] on; [None] when [pos > s.size()],
    where [std::string::substr] throws [std::out_of_range]. *)
Fixpoint drop (pos : nat) (s : string) : option string :=
  match pos, s with
  | O, _ => Some s
  | S _, EmptyString => None
  | S pos', String _ s' => drop pos' s'
  end.

(** The first [n] bytes of [s], or all of [s] when it is shorter. *)
Fixpoint take (n : nat) (s : string) : string :=
  match n, s with
  | O, _ => EmptyString
  | S _, EmptyString => EmptyString
  | S n', String c s' => String c (take n' s')
  end.

(** [s.substr(pos, n)] *)
Definition substr (s : string) (pos n : nat) : option string :=
  match drop pos s with
  | Some t => Some (take n t)
  | None => None
  end.

(** Number of occurrences of the byte [c] in [s]. *)
Fixpoint count (c : ascii) (s : string) : nat :=
  match s with
  | EmptyString => O
  | String d s' => (if Ascii.eqb d c then 1 else 0) + count c s'
  end.

(** Byte-wise lexicographic order, the order of the keys of the store
    ([memcmp], the shorter key first on a tie). *)
Fixpoint ltb (s t : string) : bool :=
  match s, t with
  | _, EmptyString => false
  | EmptyString, String _ _ => true
  | String a s', String b t' =>
      if (N_of_ascii a <? N_of_ascii b)%N then true
      else if (N_of_ascii a =? N_of_ascii b)%N then ltb s' t'
      else false
  end.

End Str.

(* ===================================================================== *)
(** ** Machine integers *)
(* ===================================================================== *)

(** Reduction of an unbounded integer to [uint64_t]. *)
Definition wrap64 (z : Z) : Z := z mod 2 ^ 64.
#[global] Arguments wrap64 : simpl never.

(** [stx::kMicrosPerSecond] *)
Definition kMicrosPerSecond : Z := 1000000.

(** The byte with the value [z mod 256], and the value of a byte. *)
Definition byte_of (z : Z) : ascii := ascii_of_N (Z.to_N (z mod 256)).
Definition Z_of_byte (c : ascii) : Z := Z.of_N (N_of_ascii c).

(** What the writer and the reader need of a seven-bit group [b], and of
    the same group with the continuation bit set. *)
Definition low7_facts (b : Z) : bool :=
  (Z_of_byte (byte_of b) =? b) && (Z.land b 127 =? b) && (Z.land b 128 =? 0)
  && (Z.land (Z_of_byte (byte_of (Z.lor b 128))) 127 =? b)
  && negb (Z.land (Z_of_byte (byte_of (Z.lor b 128))) 128 =? 0).

(* ===================================================================== *)
(** ** Exceptions and the result of a call *)
(* ===================================================================== *)

Inductive Exn : Type :=
  | kRuntimeError
  | kParseError
  | kIndexError
  | kBufferOverflowError
  | std_out_of_range
  | std_invalid_argument
  | undefined_behaviour
  | target_failure.

(** Every one of them is a [std::exception], so the handlers of
    [flushSession] catch them all. [undefined_behaviour] stands for a point
    where the program has no defined behaviour. *)

Inductive Res (S A : Type) : Type :=
  | Ok (a : A) (s : S)
  | Raise (e : Exn) (s : S).
Arguments Ok {S A} a s.
Arguments Raise {S A} e s.

(** The state a call leaves behind, however it ends. *)
Definition state_of {S A : Type} (r : Res S A) : S :=
  match r with Ok _ st => st | Raise _ st => st end.

(** The value a call returns, [d] when it raises. *)
Definition result_of {S A : Type} (d : A) (r : Res S A) : A :=
  match r with Ok a _ => a | Raise _ _ => d end.

(* ===================================================================== *)
(** ** util::BinaryMessageWriter and util::BinaryMessageReader *)
(* ===================================================================== *)

Module BinaryMessage.

(** Modelled from the spec: [BinaryMessageWriter::appendVarUInt] is not
    among the sources; the spec calls the encoding "varint":
    seven payload bits per byte, least significant group first, the top
    bit set on every byte but the last. A [uint64_t] needs at most ten
    bytes, which bounds the loop. *)
Fixpoint varuint_bytes (n : nat) (value : Z) : string :=
  match n with
  | O => EmptyString
  | S n' =>
      let b := Z.land value 127 in
      let value' := Z.shiftr value 7 in
      if value' =? 0 then String (byte_of b) EmptyString
      else String (byte_of (Z.lor b 128)) (varuint_bytes n' value')
  end.

Definition appendVarUInt (buf : string) (value : Z) : string :=
  buf +:+ varuint_bytes 10 (wrap64 value).

#[global] Arguments varuint_bytes : simpl never.
#[global] Arguments appendVarUInt : simpl never.

(** Modelled from the spec: [BinaryMessageWriter::append(data, size)]
    puts the bytes at the end of the buffer. *)
Definition append (buf data : string) : string := buf +:+ data.

(** A reader is the unread rest of the message. *)
Definition Reader : Type := string.

(** Modelled from the spec: [BinaryMessageReader::remaining], the number
    of unread bytes. *)
Definition remaining (r : Reader) : nat := Str.length r.

(** Modelled from the spec: [BinaryMessageReader::read(n)] is not among
    the sources. It hands out the next [n] bytes and fails when
    fewer remain ("requested read exceeds message bounds"). *)
Definition read (r : Reader) (n : nat) : Exn + (string * Reader) :=
  match Str.drop n r with
  | Some rest => inr (Str.take n r, rest)
  | None => inl kBufferOverflowError
  end.

(** Modelled from the spec: [BinaryMessageReader::readVarUInt], the
    inverse of [appendVarUInt]: byte [i] contributes its low seven bits
    shifted left by [7 * i] into a [uint64_t]; reading stops after the
    first byte whose top bit is clear. The recursion is on the unread
    bytes. *)
Fixpoint readVarUInt_from (r : Reader) (i : Z) (val : Z)
  : Exn + (Z * Reader) :=
  match r with
  | EmptyString => inl kBufferOverflowError
  | String c rest =>
      let b := Z_of_byte c in
      let val' := wrap64 (Z.lor val (Z.shiftl (Z.land b 127) (7 * i))) in
      if Z.land b 128 =? 0 then inr (val', rest)
      else readVarUInt_from rest (i + 1) val'
  end.

Definition readVarUInt (r : Reader) : Exn + (Z * Reader) :=
  readVarUInt_from r 0 0.

End BinaryMessage.

(* ===================================================================== *)
(** ** The ordered key-value transaction *)
(* ===================================================================== *)

Module MDB.

(** The contents of the transaction: the records in key order. *)
Definition Store : Type := list (string * string).

(** Modelled from the spec: [MDBTransaction::insert] and [::update] are
    not among the sources; both are insert-or-overwrite. The
    record goes to its place in key order. The store is taken to work:
    an insert or update that fails, and raises out of its caller, has no
    counterpart here. *)
Fixpoint put (key value : string) (s : Store) : Store :=
  match s with
  | [] => [(key, value)]
  | (k, v) :: s' =>
      if Str.ltb key k then (key, value) :: (k, v) :: s'
      else if String.eqb key k then (key, value) :: s'
      else (k, v) :: put key value s'
  end.

(** Modelled from the spec: [MDBCursor::del] removes the record under
    the cursor. *)
Definition del (key : string) (s : Store) : Store :=
  filter (fun kv => negb (String.eqb (fst kv) key)) s.

(** A cursor is the part of the store from its position on, the record
    under the cursor first. [getNext] moves to the following record,
    also after [del]. *)
Definition Cursor : Type := list (string * string).

(** Modelled from the spec: [MDBCursor::getFirst]. *)
Definition getFirst (s : Store) : Cursor := s.

(** Modelled from the spec: [MDBCursor::getFirstOrGreater(key)], the
    first record whose key is not below [key]. *)
Fixpoint getFirstOrGreater (key : string) (s : Store) : Cursor :=
  match s with
  | [] => []
  | (k, v) :: s' =>
      if Str.ltb k key then getFirstOrGreater key s' else (k, v) :: s'
  end.

Definition keys (s : Store) : list string := map fst s.

(** The store is in strictly increasing key order. *)
Fixpoint sorted (s : Store) : Prop :=
  match s with
  | [] => True
  | (k, _) :: s' => Forall (fun kv => Str.ltb k (fst kv) = true) s' /\ sorted s'
  end.

(** The same, as a test. *)
Fixpoint sortedb (s : Store) : bool :=
  match s with
  | [] => true
  | (k, _) :: s' => forallb (fun kv => Str.ltb k (fst kv)) s' && sortedb s'
  end.

End MDB.

(* ===================================================================== *)
(** ** Data of the sessionizer *)
(* ===================================================================== *)

(** [stx::URI::ParamList] *)
Definition ParamList : Type := list (string * string).

(** Modelled from the spec: [stx::URI::getParam(params, key, &value)] is
    not among the sources; it extracts the value of the first pair named
    [key], and [None] stands for the call returning false. *)
Fixpoint getParam (params : ParamList) (key : string) : option string :=
  match params with
  | [] => None
  | (k, v) :: params' => if String.eqb k key then Some v else getParam params' key
  end.

(** One event of a session: time in microseconds, event type, event id and
    the stored parameters. *)
Record Event : Type := mkEvent {
  ev_time : Z;
  ev_type : string;
  ev_id : string;
  ev_params : ParamList
}.

Record TrackedSession : Type := mkSession {
  uid : string;
  customer_key : string;
  events : list Event
}.

(** [session.customer_key = value] *)
Definition set_customer_key (value : string) (s : TrackedSession) : TrackedSession :=
  mkSession (uid s) value (events s).

(** Modelled from the spec: [TrackedSession::insertLogline] is not among
    the sources; it appends [(time, evtype, eid, params)] to the
    in-memory session. *)
Definition session_insertLogline
    (s : TrackedSession) (time : Z) (evtype evid : string) (logline : ParamList)
  : TrackedSession :=
  mkSession (uid s) (customer_key s) (events s ++ [mkEvent time evtype evid logline]).

(** Modelled from the spec: [TrackedSession::firstSeenTime] is not among
    the sources; the first-seen time is derived from the events,
    and there is none for a session without events. *)
Definition firstSeenTime (s : TrackedSession) : option Z :=
  match events s with
  | [] => None
  | e :: es => Some (fold_left Z.min (map ev_time es) (ev_time e))
  end.

Record SessionEnvelope : Type := mkEnvelope {
  env_customer : string;
  env_session_id : string;
  env_time : Z;
  env_session_data : string
}.

(** What [stx::logError] and [stx::logInfo] are called with. *)
Inductive LogMsg : Type :=
  | log_invalid_logline (e : Exn)
  | log_missing_customer_key (uid : string)
  | log_onSession_crashed (e : Exn)
  | log_dryrun.

(* ===================================================================== *)
(** ** The pixel parameter dictionary *)
(* ===================================================================== *)

Record PixelParams : Type := mkPixelParams {
  pixel_param_ids_ : gmap string Z;
  pixel_param_names_ : gmap Z string
}.

Definition addPixelParamID (param : string) (id : Z) (d : PixelParams) : PixelParams :=
  mkPixelParams (<[param := id]> (pixel_param_ids_ d))
                (<[id := param]> (pixel_param_names_ d)).

(** The registrations of the constructor, in its order. *)
Definition registrations : list (string * Z) :=
  [ ("dw_ab", 1); ("l", 2); ("u_x", 3); ("u_y", 4); ("is", 5); ("pg", 6);
    ("q_cat1", 7); ("q_cat2", 8); ("q_cat3", 9); ("slrid", 10); ("i", 11);
    ("s", 12); ("ml", 13); ("adm", 14); ("lgn", 15); ("slr", 16);
    ("lng", 17); ("dwnid", 18); ("fnm", 19); ("r_url", 20); ("r_nm", 21);
    ("r_cpn", 22); ("x", 23); ("qx", 24); ("cs", 25); ("qt", 26);
    ("qstr~de", 100); ("qstr~pl", 101); ("qstr~en", 102); ("qstr~fr", 103);
    ("qstr~it", 104); ("qstr~nl", 105); ("qstr~es", 106) ].

Definition pixel_params : PixelParams :=
  fold_left (fun d r => addPixelParamID (fst r) (snd r) d) registrations
            (mkPixelParams ∅ ∅).

Definition getPixelParamID (param : string) : Exn + Z :=
  match pixel_param_ids_ pixel_params !! param with
  | Some id => inr id
  | None => inl kIndexError
  end.

#[global] Arguments pixel_params : simpl never.
#[global] Arguments getPixelParamID : simpl never.

(** The argument is a [uint32_t]. *)
Definition getPixelParamName (id : Z) : Exn + string :=
  match pixel_param_names_ pixel_params !! (id mod 2 ^ 32) with
  | Some name => inr name
  | None => inl kIndexError
  end.

#[global] Arguments getPixelParamName : simpl never.

(* ===================================================================== *)
(** ** The event record *)
(* ===================================================================== *)

Module EventRecord.
Import BinaryMessage.

(** The loop over the stored parameters in [appendToSession]. *)
Fixpoint append_params (buf : string) (logline : ParamList) : Exn + string :=
  match logline with
  | [] => inr buf
  | (name, value) :: logline' =>
      match getPixelParamID name with
      | inl e => inl e
      | inr id =>
          let buf := appendVarUInt buf id in
          let buf := appendVarUInt buf (Z.of_nat (Str.length value)) in
          let buf := append buf value in
          append_params buf logline'
      end
  end.

(** The record written by [appendToSession] for an event at [time_s]
    seconds. *)
Definition encode (time_s : Z) (evid : string) (logline : ParamList) : Exn + string :=
  let buf := appendVarUInt EmptyString time_s in
  let buf := appendVarUInt buf (Z.of_nat (Str.length evid)) in
  let buf := append buf evid in
  append_params buf logline.

(** The first two fields, read in [flushSession] before its [try]. *)
Definition read_header (r : Reader) : Exn + (Z * string * Reader) :=
  match readVarUInt r with
  | inl e => inl e
  | inr (time_s, r) =>
      match readVarUInt r with
      | inl e => inl e
      | inr (evid_len, r) =>
          match read r (Z.to_nat evid_len) with
          | inl e => inl e
          | inr (evid, r) => inr (time_s, evid, r)
          end
      end
  end.

(** The loop [while (reader.remaining() > 0)] of [flushSession]. Every
    round reads at least one byte, so [remaining r] rounds are enough;
    [n] counts them down. *)
Fixpoint read_params (n : nat) (r : Reader) : Exn + ParamList :=
  if Nat.eqb (remaining r) 0 then inr []
  else match n with
       | O => inl kBufferOverflowError
       | S n' =>
           match readVarUInt r with
           | inl e => inl e
           | inr (id, r) =>
               match getPixelParamName id with
               | inl e => inl e
               | inr key =>
                   match readVarUInt r with
                   | inl e => inl e
                   | inr (len, r) =>
                       match read r (Z.to_nat len) with
                       | inl e => inl e
                       | inr (value, r) =>
                           match read_params n' r with
                           | inl e => inl e
                           | inr logline => inr ((key, value) :: logline)
                           end
                       end
                   end
               end
           end
       end.

(** The whole record: what [flushSession] reads from a stored value. *)
Definition decode (value : string) : Exn + (Z * string * ParamList) :=
  match read_header value with
  | inl e => inl e
  | inr (time_s, evid, r) =>
      match read_params (remaining r) r with
      | inl e => inl e
      | inr logline => inr (time_s, evid, logline)
      end
  end.

End EventRecord.

(** The parameter name has an id in the dictionary. *)
Definition registered (name : string) : Prop :=
  exists id, getPixelParamID name = inr id.

(** The size of the string is a [uint64_t], as the size of every
    [std::string] is. *)
Definition fits (s : string) : Prop := Z.of_nat (Str.length s) < 2 ^ 64.

(* ===================================================================== *)
(** ** Random identifiers *)
(* ===================================================================== *)

(** Modelled from the spec: [Random::hex64] and [Random::hex128] are not
    among the sources; the key of an event ends in the 16 hexadecimal
    characters of a random 64-bit value, the key of an envelope in the 32
    characters of a random 128-bit value. *)
Definition hex_digit (d : Z) : ascii :=
  if d <? 10 then byte_of (48 + d) else byte_of (87 + d).

(** The [n] low hexadecimal digits of [v], most significant first. *)
Fixpoint hex_digits (n : nat) (v : Z) : string :=
  match n with
  | O => EmptyString
  | S n' => hex_digits n' (Z.shiftr v 4) +:+ String (hex_digit (Z.land v 15)) EmptyString
  end.

(* ===================================================================== *)
(** ** The collaborators and the state *)
(* ===================================================================== *)

(** What the sessionizer is constructed with and what it calls but does not
    own. *)
Record Env : Type := mkEnv {
  (** [shard_.testUID(uid)] *)
  testUID : string -> bool;
  (** [target_->joinSession(session)]; [inl] when the target throws. *)
  joinSession : TrackedSession -> Exn + string;
  (** [dry_run_] *)
  dry_run_ : bool;
  (** [kSessionIdleTimeoutSeconds], declared in the header. *)
  kSessionIdleTimeoutSeconds : Z;
  (** The sequence of 64-bit values the generator [rnd_] produces. *)
  random64 : nat -> Z;
  (** [stx::URI::parseQueryString]; [inl] when it throws. *)
  parseQueryString : string -> Exn + ParamList;
  (** [std::stoul]; [inl] when it throws. *)
  stoul : string -> Exn + Z;
  (** [msg::encode] on a session envelope. *)
  encode_envelope : SessionEnvelope -> string
}.

(** The object, the log and the transaction [txn] every call is handed. *)
Record State : Type := mkState {
  sessions_flush_times_ : gmap string Z;
  stat_loglines_total_ : N;
  stat_loglines_invalid_ : N;
  stat_joined_sessions_ : N;
  rnd_ : nat;
  log : list LogMsg;
  txn : MDB.Store
}.

Definition set_flush_times (f : gmap string Z -> gmap string Z) (st : State) : State :=
  mkState (f (sessions_flush_times_ st)) (stat_loglines_total_ st)
          (stat_loglines_invalid_ st) (stat_joined_sessions_ st) (rnd_ st)
          (log st) (txn st).

Definition incr_loglines_total (st : State) : State :=
  mkState (sessions_flush_times_ st) (stat_loglines_total_ st + 1)
          (stat_loglines_invalid_ st) (stat_joined_sessions_ st) (rnd_ st)
          (log st) (txn st).

Definition incr_loglines_invalid (st : State) : State :=
  mkState (sessions_flush_times_ st) (stat_loglines_total_ st)
          (stat_loglines_invalid_ st + 1) (stat_joined_sessions_ st) (rnd_ st)
          (log st) (txn st).

Definition incr_joined_sessions (st : State) : State :=
  mkState (sessions_flush_times_ st) (stat_loglines_total_ st)
          (stat_loglines_invalid_ st) (stat_joined_sessions_ st + 1) (rnd_ st)
          (log st) (txn st).

Definition set_rnd (n : nat) (st : State) : State :=
  mkState (sessions_flush_times_ st) (stat_loglines_total_ st)
          (stat_loglines_invalid_ st) (stat_joined_sessions_ st) n
          (log st) (txn st).

Definition add_log (m : LogMsg) (st : State) : State :=
  mkState (sessions_flush_times_ st) (stat_loglines_total_ st)
          (stat_loglines_invalid_ st) (stat_joined_sessions_ st) (rnd_ st)
          (log st ++ [m]) (txn st).

Definition set_txn (f : MDB.Store -> MDB.Store) (st : State) : State :=
  mkState (sessions_flush_times_ st) (stat_loglines_total_ st)
          (stat_loglines_invalid_ st) (stat_joined_sessions_ st) (rnd_ st)
          (log st) (f (txn st)).

(** [m.emplace(key, value)] on a map of the standard library: the pair is
    inserted only when the map has no element with that key; an existing
    element is left as it is. *)
Definition emplace (key : string) (value : Z) (m : gmap string Z) : gmap string Z :=
  match m !! key with
  | Some _ => m
  | None => <[key := value]> m
  end.

(** The statement [appendToSession] and [importTimeoutList] share:
    [if (old_ftime == end() || old_ftime->second < ftime) emplace(key, ftime)]. *)
Definition update_flush_time (key : string) (ftime : Z) (m : gmap string Z) : gmap string Z :=
  match m !! key with
  | None => emplace key ftime m
  | Some old_ftime => if old_ftime <? ftime then emplace key ftime m else m
  end.

Definition tilde : ascii := "~"%char.
Definition pipe : ascii := "|"%char.

Section LogJoin.

Variable env : Env.

(** [rnd_.hex64()] *)
Definition hex64 (st : State) : string * State :=
  (hex_digits 16 (random64 env (rnd_ st)), set_rnd (S (rnd_ st)) st).

(** [rnd_.hex128()] *)
Definition hex128 (st : State) : string * State :=
  (hex_digits 16 (random64 env (rnd_ st))
     +:+ hex_digits 16 (random64 env (S (rnd_ st))),
   set_rnd (S (S (rnd_ st))) st).

(** [LogJoin::appendToSession] *)
Definition appendToSession
    (customer_key : string) (time : Z) (uid evid evtype : string)
    (logline : ParamList) (st : State) : Res State unit :=
  let flush_at :=
    wrap64 (time + kSessionIdleTimeoutSeconds env * kMicrosPerSecond) in
  let st := set_flush_times (update_flush_time uid flush_at) st in
  match EventRecord.encode (time / kMicrosPerSecond) evid logline with
  | inl e => Raise e st
  | inr buf =>
      let (hex, st) := hex64 st in
      let evkey := uid +:+ "~" +:+ evtype +:+ "~" +:+ hex in
      let st := set_txn (MDB.put evkey buf) st in
      let st := set_txn (MDB.put (uid +:+ "~cust") customer_key) st in
      Ok tt st
  end.

(** The [switch] on the event type. *)
Definition evtype_allowed (evtype : string) : bool :=
  match evtype with
  | String c _ =>
      Ascii.eqb c "q" || Ascii.eqb c "v" || Ascii.eqb c "c" || Ascii.eqb c "u"
  | EmptyString => false
  end.

Definition is_stored_param (p : string * string) : bool :=
  negb (String.eqb (fst p) "c" || String.eqb (fst p) "e" || String.eqb (fst p) "v").

(** The body of the [try] block of [LogJoin::insertLogline]. *)
Definition insertLogline_try
    (customer_key : string) (time : Z) (params : ParamList) (st : State)
  : Res State unit :=
  match getParam params "c" with
  | None => Raise kParseError st
  | Some c =>
      match Str.find c tilde with
      | None => Raise kParseError st
      | Some c_s =>
          match Str.substr c 0 c_s,
                Str.substr c (c_s + 1) (Str.length c - c_s - 1) with
          | Some uid, Some eid =>
              if Nat.eqb (Str.length uid) 0 || Nat.eqb (Str.length eid) 0
              then Raise kParseError st
              else if negb (testUID env uid) then Ok tt st
              else
                match getParam params "e" with
                | None => Raise kParseError st
                | Some evtype =>
                    if negb (Nat.eqb (Str.length evtype) 1)
                    then Raise kParseError st
                    else if negb (evtype_allowed evtype)
                    then Raise kParseError st
                    else
                      let stored_params := filter is_stored_param params in
                      appendToSession customer_key time uid eid evtype
                                      stored_params st
                end
          | _, _ => Raise std_out_of_range st
          end
      end
  end.

(** [LogJoin::insertLogline(customer_key, time, log_line, txn)] *)
Definition insertLogline
    (customer_key : string) (time : Z) (log_line : string) (st : State)
  : Res State unit :=
  match parseQueryString env log_line with
  | inl e => Raise e st
  | inr params =>
      let st := incr_loglines_total st in
      match insertLogline_try customer_key time params st with
      | Ok r st => Ok r st
      | Raise e st => Raise e (incr_loglines_invalid st)
      end
  end.

(** [s.find(c, pos)] *)
Definition find_from (s : string) (c : ascii) (pos : nat) : option nat :=
  match Str.drop pos s with
  | Some t =>
      match Str.find t c with
      | Some i => Some (pos + i)%nat
      | None => None
      end
  | None => None
  end.

(** [LogJoin::insertLogline(log_line, txn)]: the pipe-delimited wrapper. *)
Definition insertLogline_raw (log_line : string) (st : State) : Res State unit :=
  match Str.find log_line pipe with
  | None => Raise kRuntimeError st
  | Some c_end =>
      match find_from log_line pipe (c_end + 1) with
      | None => Raise kRuntimeError st
      | Some t_end =>
          match Str.substr log_line 0 c_end,
                Str.drop (t_end + 1) log_line,
                Str.substr log_line (c_end + 1) (t_end - c_end - 1) with
          | Some customer_key, Some body, Some timestr =>
              match stoul env timestr with
              | inl e => Raise e st
              | inr secs =>
                  insertLogline customer_key (wrap64 (secs * kMicrosPerSecond))
                                body st
              end
          | _, _, _ => Raise std_out_of_range st
          end
      end
  end.

(** The loop of [LogJoin::flushSession]. [cursor] holds the records from
    the cursor's position on; [cursor->del()] removes the record under
    the cursor from the transaction and [getNext] moves on. *)
Fixpoint flushSession_scan
    (uid : string) (cursor : MDB.Cursor) (session : TrackedSession)
    (st : State) : Res State TrackedSession :=
  match cursor with
  | [] => Ok session st
  | (key_str, value) :: cursor' =>
      if negb (Str.beginsWith key_str uid) then Ok session st
      else if Str.endsWith key_str "~cust" then
        let session := set_customer_key value session in
        flushSession_scan uid cursor' session (set_txn (MDB.del key_str) st)
      else
        match Str.drop (Str.length uid + 1) key_str with
        | None => Raise std_out_of_range st
        | Some key_rest =>
            let evtype := Str.take 1 key_rest in
            match EventRecord.read_header value with
            | inl e => Raise e st
            | inr (time_s, evid, reader) =>
                let time := wrap64 (time_s * kMicrosPerSecond) in
                match EventRecord.read_params
                        (BinaryMessage.remaining reader) reader with
                | inr logline =>
                    let session :=
                      session_insertLogline session time evtype evid logline in
                    flushSession_scan uid cursor' session
                                      (set_txn (MDB.del key_str) st)
                | inl e =>
                    let st := add_log (log_invalid_logline e) st in
                    let st := incr_loglines_invalid st in
                    flushSession_scan uid cursor' session
                                      (set_txn (MDB.del key_str) st)
                end
            end
        end
  end.

(** [LogJoin::onSession] *)
Definition onSession (session : TrackedSession) (st : State) : Res State unit :=
  match joinSession env session with
  | inl e => Raise e st
  | inr session_data =>
      if dry_run_ env then Ok tt (add_log log_dryrun st)
      else
        match firstSeenTime session with
        | None => Raise kRuntimeError st
        | Some first_seen =>
            let envelope :=
              mkEnvelope (customer_key session) (uid session) first_seen
                         session_data in
            let envelope_buf := encode_envelope env envelope in
            let (hex, st) := hex128 st in
            let key := "__sessionq-" +:+ hex in
            Ok tt (set_txn (MDB.put key envelope_buf) st)
        end
  end.

(** [LogJoin::flushSession] *)
Definition flushSession (uid : string) (stream_time : Z) (st : State)
  : Res State unit :=
  let session := mkSession uid EmptyString [] in
  match flushSession_scan uid (MDB.getFirstOrGreater uid (txn st)) session st with
  | Raise e st => Raise e st
  | Ok session st =>
      if Nat.eqb (Str.length (customer_key session)) 0
      then Ok tt (add_log (log_missing_customer_key uid) st)
      else
        let st :=
          match onSession session st with
          | Ok _ st => st
          | Raise e st => add_log (log_onSession_crashed e) st
          end in
        Ok tt (incr_joined_sessions st)
  end.

(** The loop of [LogJoin::flush] over the entries of the deadline map. *)
Fixpoint flush_loop (iter : list (string * Z)) (stream_time : Z) (st : State)
  : Res State unit :=
  match iter with
  | [] => Ok tt st
  | (uid, ftime) :: iter' =>
      if ftime <? stream_time then
        match flushSession uid stream_time st with
        | Raise e st => Raise e st
        | Ok _ st =>
            flush_loop iter' stream_time (set_flush_times (delete uid) st)
        end
      else flush_loop iter' stream_time st
  end.

(** [LogJoin::flush] *)
Definition flush (stream_time : Z) (st : State) : Res State unit :=
  flush_loop (map_to_list (sessions_flush_times_ st)) stream_time st.

(** The loop of [LogJoin::importTimeoutList]. *)
Fixpoint importTimeoutList_loop (cursor : MDB.Cursor) (st : State)
  : Res State unit :=
  match cursor with
  | [] => Ok tt st
  | (key, value) :: cursor' =>
      if Str.beginsWith key "__" then importTimeoutList_loop cursor' st
      else if Str.endsWith key "~cust" then importTimeoutList_loop cursor' st
      else
        match Str.find key tilde with
        | None => Raise undefined_behaviour st
        | Some i =>
            let sid := Str.take i key in
            match BinaryMessage.readVarUInt value with
            | inl e => Raise e st
            | inr (time, _) =>
                let ftime :=
                  wrap64 ((time + kSessionIdleTimeoutSeconds env)
                          * kMicrosPerSecond) in
                importTimeoutList_loop
                  cursor' (set_flush_times (update_flush_time sid ftime) st)
            end
        end
  end.

(** [LogJoin::importTimeoutList] *)
Definition importTimeoutList (st : State) : Res State unit :=
  importTimeoutList_loop (MDB.getFirst (txn st)) st.

End LogJoin.

(* ===================================================================== *)
(** ** Notions used in the statements *)
(* ===================================================================== *)

(** The records a scan from [cursor] visits: the longest run of records
    whose keys begin with [uid]. *)
Fixpoint scan_range (uid : string) (cursor : MDB.Cursor) : list (string * string) :=
  match cursor with
  | [] => []
  | kv :: cursor' =>
      if Str.beginsWith kv.1 uid then kv :: scan_range uid cursor' else []
  end.

(** [flush_calls env t calls st st']: from [st], calling [flushSession] for
    the users [calls] in turn, each call returning normally and followed by
    the removal of the user from the deadline map, leads to [st']. *)
Inductive flush_calls (env : Env) (t : Z) : list string -> State -> State -> Prop :=
  | flush_calls_nil st : flush_calls env t [] st st
  | flush_calls_cons uid calls st st1 st' :
      flushSession env uid t st = Ok tt st1 ->
      flush_calls env t calls (set_flush_times (delete uid) st1) st' ->
      flush_calls env t (uid :: calls) st st'.

(** The store after [cursor->del()] on each of [records]. *)
Definition del_all (records : list (string * string)) (s : MDB.Store) : MDB.Store :=
  fold_left (fun s kv => MDB.del kv.1 s) records s.

(** What a scan leaves alone: the deadline map, two of the counters and
    the generator. *)
Definition same_object (st st' : State) : Prop :=
  sessions_flush_times_ st' = sessions_flush_times_ st /\
  stat_loglines_total_ st' = stat_loglines_total_ st /\
  stat_joined_sessions_ st' = stat_joined_sessions_ st /\
  rnd_ st' = rnd_ st.

(** The users whose deadline is before [t], in the order of [iter]. *)
Definition due (t : Z) (iter : list (string * Z)) : list string :=
  (filter (fun p => p.2 < t) iter).*1.

(** The record does not make the scan of [uid] raise: it is a customer-key
    record, or its key is longer than [uid] and the timestamp and the event
    id of its value can be read. *)
Definition well_headed (uid : string) (kv : string * string) : bool :=
  Str.endsWith kv.1 "~cust"
  || match Str.drop (Str.length uid + 1) kv.1, EventRecord.read_header kv.2 with
     | Some _, inr _ => true
     | _, _ => false
     end.

(** The event a record of the scan of [uid] stands for, if it is an event
    record that decodes. *)
Definition record_event (uid : string) (kv : string * string) : option Event :=
  if Str.endsWith kv.1 "~cust" then None
  else match Str.drop (Str.length uid + 1) kv.1, EventRecord.decode kv.2 with
       | Some key_rest, inr (time_s, evid, logline) =>
           Some (mkEvent (wrap64 (time_s * kMicrosPerSecond))
                         (Str.take 1 key_rest) evid logline)
       | _, _ => None
       end.

(** The error of an event record whose timestamp and event id can be read
    and whose parameters cannot. *)
Definition record_error (kv : string * string) : option Exn :=
  if Str.endsWith kv.1 "~cust" then None
  else match EventRecord.read_header kv.2 with
       | inl _ => None
       | inr (_, _, reader) =>
           match EventRecord.read_params (BinaryMessage.remaining reader) reader with
           | inl e => Some e
           | inr _ => None
           end
       end.


(** The key the next envelope is written under. *)
Definition next_envelope_key (env : Env) (st : State) : string :=
  "__sessionq-" +:+ (hex128 env st).1.

(* ===================================================================== *)
(** ** A concrete environment for the examples *)
(* ===================================================================== *)

Module Demo.

(** Splits [s] at the first occurrence of [c]. *)
Fixpoint split_at (c : ascii) (s : string) : string * option string :=
  match s with
  | EmptyString => (EmptyString, None)
  | String d s' =>
      if Ascii.eqb d c then (EmptyString, Some s')
      else let (a, b) := split_at c s' in (String d a, b)
  end.

(** The pieces of [s] between occurrences of [c]; [n] bounds their number. *)
Fixpoint pieces (n : nat) (c : ascii) (s : string) : list string :=
  match n with
  | O => []
  | S n' =>
      match split_at c s with
      | (a, None) => [a]
      | (a, Some rest) => a :: pieces n' c rest
      end
  end.

(** A query string without escapes: [k=v] pairs separated by [&]. *)
Definition parse (s : string) : Exn + ParamList :=
  inr (omap (fun kv => match split_at "=" kv with
                       | (k, Some v) => Some (k, v)
                       | (_, None) => None
                       end)
            (pieces (S (Str.length s)) "&" s)).

(** An unsigned decimal number. *)
Fixpoint decimal (acc : Z) (digits : nat) (s : string) : Exn + Z :=
  match s with
  | EmptyString => if Nat.eqb digits 0 then inl std_invalid_argument else inr acc
  | String d s' =>
      let v := Z_of_byte d - 48 in
      if (0 <=? v) && (v <? 10) then decimal (10 * acc + v) (S digits) s'
      else if Nat.eqb digits 0 then inl std_invalid_argument else inr acc
  end.

(** All users are in the shard, the target answers with the number of
    events, the idle timeout is 1800 seconds. *)
Definition env : Env :=
  mkEnv (fun _ => true)
        (fun s => inr (hex_digits 4 (Z.of_nat (length (events s)))))
        false 1800 (fun n => Z.of_nat n) parse (decimal 0 0)
        (fun e => env_customer e +:+ "/" +:+ env_session_id e
                    +:+ "/" +:+ env_session_data e).

(** The same, with a shard that holds no user named [u3]. *)
Definition env_shard : Env :=
  mkEnv (fun u => negb (String.eqb u "u3")) (joinSession env) false 1800
        (random64 env) parse (decimal 0 0) (encode_envelope env).

(** The same as [env], with a target that always throws. *)
Definition env_failing_target : Env :=
  mkEnv (testUID env) (fun _ => inl target_failure) false 1800
        (random64 env) parse (decimal 0 0) (encode_envelope env).

(** A freshly constructed object and an empty transaction. *)
Definition init : State := mkState ∅ 0 0 0 0 [] [].

(** The state after one event of user [u1] at second 1000. *)
Definition one_event : State :=
  state_of (insertLogline_raw env "CUST1|1000|c=u1~e1&e=q" init).

(** The state after a second event of [u1] at second 2500. *)
Definition two_events : State :=
  state_of (insertLogline_raw env "CUST1|2500|c=u1~e2&e=q" one_event).

(** The record of an event without parameters. *)
Definition event_record (time_s : Z) (evid : string) : string :=
  match EventRecord.encode time_s evid [] with
  | inr buf => buf
  | inl _ => EmptyString
  end.

(** A store with two events of [u1], at seconds 1000 and 2500, and the
    customer key of [u1]. *)
Definition persisted : MDB.Store :=
  [ ("u1~cust", "CUST1");
    ("u1~q~0000000000000000", event_record 1000 "e1");
    ("u1~q~0000000000000001", event_record 2500 "e2") ].

(** A store whose event record is cut off before the timestamp. *)
Definition truncated : MDB.Store :=
  [ ("u1~cust", "CUST1"); ("u1~q~0000000000000000", EmptyString) ].


(** Events of the users [u1] and [u10]. *)
Definition prefix_sharing : State :=
  state_of (insertLogline_raw env "CUST2|1500|c=u10~e7&e=v" one_event).

(** The same as [env], with a generator whose values fall. *)
Definition env_descending : Env :=
  mkEnv (testUID env) (joinSession env) false 1800
        (fun n => 1000 - Z.of_nat n) parse (decimal 0 0) (encode_envelope env).

(** Users [u1] and [u2], with events at seconds 1000 and 1500. *)
Definition two_users : State :=
  state_of (insertLogline_raw env "CUST1|1500|c=u2~e1&e=v" one_event).

End Demo.

(* ===================================================================== *)
(** ** Further notions used in the statements *)
(* ===================================================================== *)

(** [LogJoin::numSessions] *)
Definition numSessions (st : State) : nat := size (sessions_flush_times_ st).

(** The value a store holds under [key], if any. *)
Fixpoint store_get (key : string) (s : MDB.Store) : option string :=
  match s with
  | [] => None
  | (k, v) :: s' => if String.eqb k key then Some v else store_get key s'
  end.

(** The parsed line is a pixel line of user [u] that passes every test of
    [insertLogline]: its [c] parameter is [u~eid] with both parts
    non-empty, the shard holds [u], and its [e] parameter is one of the
    four event types. *)
Definition accepted_line (env : Env) (params : ParamList) (u eid evtype : string) : Prop :=
  getParam params "c" = Some (u +:+ "~" +:+ eid) /\
  Str.find u tilde = None /\
  (0 < Str.length u)%nat /\ (0 < Str.length eid)%nat /\
  testUID env u = true /\
  getParam params "e" = Some evtype /\
  Str.length evtype = 1%nat /\
  evtype_allowed evtype = true.

(** The [c] parameter is missing, has no [~], or has nothing before or
    nothing after its first [~]. *)
Definition bad_c (params : ParamList) : Prop :=
  match getParam params "c" with
  | None => True
  | Some c =>
      match Str.find c tilde with
      | None => True
      | Some i => i = O \/ S i = Str.length c
      end
  end.

(** The [e] parameter is missing, is not one character long, or is none of
    the four event types. *)
Definition bad_e (params : ParamList) : Prop :=
  match getParam params "e" with
  | None => True
  | Some evtype => Str.length evtype <> 1%nat \/ evtype_allowed evtype = false
  end.

(** The two maps of a dictionary agree. *)
Definition dict_agrees (d : PixelParams) : Prop :=
  forall name id,
    pixel_param_ids_ d !! name = Some id <-> pixel_param_names_ d !! id = Some name.

(** The deadline [importTimeoutList] computes from an event record. *)
Definition record_deadline (env : Env) (value : string) : option Z :=
  match BinaryMessage.readVarUInt value with
  | inl _ => None
  | inr (time, _) =>
      Some (wrap64 ((time + kSessionIdleTimeoutSeconds env) * kMicrosPerSecond))
  end.

(** The record is an event record for [importTimeoutList], and [u] is the
    user its key names: the key neither begins with [__] nor ends with
    [~cust], and [u] is what stands before its first [~]. *)
Definition event_record_of (u : string) (kv : string * string) : Prop :=
  Str.beginsWith kv.1 "__" = false /\
  Str.endsWith kv.1 "~cust" = false /\
  exists i, Str.find kv.1 tilde = Some i /\ u = Str.take i kv.1.

Module Demo2.

(** The same as [Demo.env], in dry-run mode. *)
Definition env_dry_run : Env :=
  mkEnv (testUID Demo.env) (joinSession Demo.env) true 1800
        (random64 Demo.env) Demo.parse (Demo.decimal 0 0) (encode_envelope Demo.env).


End Demo2.


(* ===================================================================== *)
(** * Properties *)
(* ===================================================================== *)

(** ** Byte strings *)

Module StrFacts.

Lemma append_empty_r s : s +:+ EmptyString = s.
Proof. induction s as [|c s' IH]; simpl; [reflexivity | now rewrite IH]. Qed.

Lemma append_assoc s t u : (s +:+ t) +:+ u = s +:+ (t +:+ u).
Proof. induction s as [|c s' IH]; simpl; [reflexivity | now rewrite IH]. Qed.

Lemma length_append s t :
  Str.length (s +:+ t) = (Str.length s + Str.length t)%nat.
Proof. induction s as [|c s' IH]; simpl; [reflexivity | now rewrite IH]. Qed.

Lemma drop_append s t : Str.drop (Str.length s) (s +:+ t) = Some t.
Proof. induction s as [|c s' IH]; simpl; [now destruct t | exact IH]. Qed.

Lemma take_append s t : Str.take (Str.length s) (s +:+ t) = s.
Proof. induction s as [|c s' IH]; simpl; [reflexivity | now rewrite IH]. Qed.

Lemma beginsWith_append s t : Str.beginsWith (s +:+ t) s = true.
Proof.
  induction s as [|c s' IH]; simpl; [reflexivity|].
  now rewrite Ascii.eqb_refl.
Qed.

Lemma beginsWith_inv s p :
  Str.beginsWith s p = true -> exists t, s = p +:+ t.
Proof.
  revert s. induction p as [|c p IH]; intros s H; simpl in *.
  - now exists s.
  - destruct s as [|d s]; [discriminate|].
    destruct (Ascii.eqb_spec d c) as [->|]; [|discriminate].
    destruct (IH _ H) as [t ->]. now exists t.
Qed.

(** A key that begins with [p ++ q] begins with [p]. *)
Lemma beginsWith_weaken s p q :
  Str.beginsWith s (p +:+ q) = true -> Str.beginsWith s p = true.
Proof.
  intros [t ->]%beginsWith_inv. rewrite append_assoc.
  apply beginsWith_append.
Qed.

Lemma ltb_irrefl s : Str.ltb s s = false.
Proof.
  induction s as [|c s' IH]; simpl; [reflexivity|].
  now rewrite N.ltb_irrefl, N.eqb_refl.
Qed.

(** A string is not below any of its prefixes. *)
Lemma beginsWith_not_ltb s p :
  Str.beginsWith s p = true -> Str.ltb s p = false.
Proof.
  revert s. induction p as [|c p IH]; intros s H.
  - now destruct s.
  - destruct s as [|d s]; simpl in *; [discriminate|].
    destruct (Ascii.eqb_spec d c) as [->|]; [|discriminate].
    rewrite N.ltb_irrefl, N.eqb_refl. now apply IH.
Qed.

Lemma N_of_ascii_inj a b : N_of_ascii a = N_of_ascii b -> a = b.
Proof.
  intros H. rewrite <- (ascii_N_embedding a), <- (ascii_N_embedding b).
  now rewrite H.
Qed.

(** Keys that begin with [p] are contiguous in key order: once the scan
    from [p] has met a key that does not begin with [p], no later key
    does. *)
Lemma beginsWith_contiguous p : forall k1 k2,
  Str.ltb k1 p = false ->
  Str.beginsWith k1 p = false ->
  Str.ltb k1 k2 = true ->
  Str.beginsWith k2 p = false.
Proof.
  induction p as [|a p IH]; intros k1 k2 Hge Hnp Hlt.
  - now destruct k1.
  - destruct k1 as [|b k1]; [discriminate|].
    destruct k2 as [|c k2]; [reflexivity|].
    simpl in *.
    destruct (Ascii.eqb_spec c a) as [->|Hca]; [|reflexivity].
    destruct (Ascii.eqb_spec b a) as [->|Hba].
    + rewrite N.ltb_irrefl, N.eqb_refl in *. eapply IH; eauto.
    + destruct (N.ltb_spec (N_of_ascii b) (N_of_ascii a)); [discriminate|].
      destruct (N.ltb_spec (N_of_ascii b) (N_of_ascii a)); [lia|].
      destruct (N.eqb_spec (N_of_ascii b) (N_of_ascii a)) as [E|E];
        [now apply N_of_ascii_inj in E|].
      lia.
Qed.

End StrFacts.

(** ** Machine integers and the varint *)

Module VarUInt.
Import BinaryMessage.

Lemma split7 v : Z.lor (Z.land v 127) (Z.shiftl (Z.shiftr v 7) 7) = v.
Proof.
  apply Z.bits_inj'. intros k Hk.
  rewrite Z.lor_spec, Z.land_spec. change 127 with (Z.ones 7).
  destruct (Z.ltb_spec k 7).
  - rewrite Z.ones_spec_low, Z.shiftl_spec_low by lia.
    now rewrite andb_true_r, orb_false_r.
  - rewrite Z.ones_spec_high, Z.shiftl_spec, Z.shiftr_spec by lia.
    replace (k - 7 + 7) with k by lia. now rewrite andb_false_r.
Qed.

Lemma wrap64_lor_l x y : wrap64 (Z.lor (wrap64 x) y) = wrap64 (Z.lor x y).
Proof.
  unfold wrap64. rewrite <- !Z.land_ones by lia.
  rewrite !Z.land_lor_distr_l, <- Z.land_assoc, Z.land_diag. reflexivity.
Qed.

Lemma wrap64_small v : 0 <= v < 2 ^ 64 -> wrap64 v = v.
Proof. intros H. unfold wrap64. now apply Z.mod_small. Qed.

Lemma low7_all b : 0 <= b < 128 -> low7_facts b = true.
Proof.
  intros Hb.
  assert (H : forallb (fun k => low7_facts (Z.of_nat k)) (seq 0 128) = true)
    by (vm_compute; reflexivity).
  rewrite forallb_forall in H.
  specialize (H (Z.to_nat b)). rewrite Z2Nat.id in H by lia.
  apply H. apply in_seq. lia.
Qed.

Lemma varuint_bytes_S n v :
  varuint_bytes (S n) v
  = if Z.shiftr v 7 =? 0 then String (byte_of (Z.land v 127)) EmptyString
    else String (byte_of (Z.lor (Z.land v 127) 128))
                (varuint_bytes n (Z.shiftr v 7)).
Proof. reflexivity. Qed.

(** Reading back the bytes of a value that fits in [n] groups of seven
    bits, from group [i] on. *)
Lemma readVarUInt_from_bytes n : forall v i acc rest,
  (1 <= n)%nat -> 0 <= v < 2 ^ (7 * Z.of_nat n) -> 0 <= i ->
  readVarUInt_from (varuint_bytes n v +:+ rest) i acc
  = inr (wrap64 (Z.lor acc (Z.shiftl v (7 * i))), rest).
Proof.
  induction n as [|n IH]; intros v i acc rest Hn Hv Hi; [lia|].
  assert (Hb : 0 <= Z.land v 127 < 128).
  { change 127 with (Z.ones 7). rewrite Z.land_ones by lia.
    apply Z.mod_pos_bound. lia. }
  pose proof (low7_all _ Hb) as F. unfold low7_facts in F.
  repeat (apply andb_prop in F; destruct F as [F ?]).
  repeat match goal with
         | H : (_ =? _) = true |- _ => apply Z.eqb_eq in H
         | H : negb (_ =? _) = true |- _ =>
             apply negb_true_iff in H
         end.
  rewrite varuint_bytes_S.
  destruct (Z.eqb_spec (Z.shiftr v 7) 0) as [E|E]; simpl.
  - rewrite F. 
    match goal with H : Z.land (Z.land v 127) 128 = 0 |- _ => rewrite H end.
    match goal with H : Z.land (Z.land v 127) 127 = _ |- _ => rewrite H end.
    simpl. do 3 f_equal.
    rewrite <- (split7 v) at 2. rewrite E. simpl. now rewrite Z.lor_0_r.
  - match goal with H : (Z.land (Z_of_byte _) 128 =? 0) = false |- _ => rewrite H end.
    match goal with H : Z.land (Z_of_byte _) 127 = _ |- _ => rewrite H end.
    assert (Hv' : 0 <= Z.shiftr v 7 < 2 ^ (7 * Z.of_nat n)).
    { rewrite Z.shiftr_div_pow2 by lia. split.
      - apply Z.div_pos; lia.
      - apply Z.div_lt_upper_bound; [lia|].
        rewrite <- Z.pow_add_r by lia.
        replace (7 + 7 * Z.of_nat n) with (7 * Z.of_nat (S n)) by lia. lia. }
    assert (Hn' : (1 <= n)%nat).
    { destruct n; [|lia]. simpl in Hv'. lia. }
    rewrite IH by (try lia; assumption).
    do 2 f_equal. rewrite wrap64_lor_l. f_equal.
    rewrite <- Z.lor_assoc. f_equal.
    rewrite <- (split7 v) at 3.
    rewrite Z.shiftl_lor, Z.shiftl_shiftl by lia.
    do 2 f_equal. lia.
Qed.

Lemma readVarUInt_append v rest :
  0 <= v < 2 ^ 64 ->
  readVarUInt (appendVarUInt EmptyString v +:+ rest) = inr (v, rest).
Proof.
  intros Hv. unfold readVarUInt, appendVarUInt.
  rewrite (wrap64_small v) by assumption.
  change (EmptyString +:+ varuint_bytes 10 v) with (varuint_bytes 10 v).
  rewrite readVarUInt_from_bytes by (simpl; lia).
  rewrite Z.shiftl_0_r. simpl Z.lor. now rewrite wrap64_small.
Qed.

End VarUInt.

(** ** The event record *)

Module EventRecordFacts.
Import BinaryMessage EventRecord VarUInt StrFacts.

(** The two maps of the dictionary agree, and every id is a [uint32_t]. *)
Lemma dict_consistent :
  map_Forall (fun name id =>
                0 <= id < 2 ^ 32 /\ pixel_param_names_ pixel_params !! id = Some name)
             (pixel_param_ids_ pixel_params).
Proof. apply (bool_decide_unpack _). vm_compute. exact I. Qed.

Lemma getPixelParamID_inv name id :
  getPixelParamID name = inr id ->
  0 <= id < 2 ^ 32 /\ getPixelParamName id = inr name.
Proof.
  unfold getPixelParamID, getPixelParamName.
  destruct (pixel_param_ids_ pixel_params !! name) as [id'|] eqn:E; [|discriminate].
  intros [= <-]. destruct (dict_consistent _ _ E) as [Hid Hn].
  split; [exact Hid|]. rewrite Z.mod_small by exact Hid. now rewrite Hn.
Qed.

Lemma appendVarUInt_eq buf v :
  appendVarUInt buf v = buf +:+ appendVarUInt EmptyString v.
Proof. reflexivity. Qed.

Lemma varuint_bytes_length n v : (1 <= Str.length (varuint_bytes (S n) v))%nat.
Proof. rewrite varuint_bytes_S. destruct (_ =? _); simpl; lia. Qed.

Lemma append_params_buf logline : forall buf,
  append_params buf logline
  = match append_params EmptyString logline with
    | inr body => inr (buf +:+ body)
    | inl e => inl e
    end.
Proof.
  induction logline as [|[name value] logline IH]; intros buf; cbn [append_params].
  - now rewrite append_empty_r.
  - destruct (getPixelParamID name) as [e|id]; [reflexivity|].
    rewrite IH. symmetry. rewrite IH.
    destruct (append_params EmptyString logline) as [e|body]; [reflexivity|].
    unfold append, appendVarUInt. rewrite !append_assoc. reflexivity.
Qed.

(** The parameter loop of the reader inverts the parameter loop of the
    writer. *)
Lemma read_params_append_params logline : forall body n,
  Forall (fun p => registered p.1 /\ fits p.2) logline ->
  append_params EmptyString logline = inr body ->
  (length logline <= n)%nat ->
  read_params n body = inr logline /\ (length logline <= Str.length body)%nat.
Proof.
  induction logline as [|[name value] logline IH]; intros body n Hall Henc Hn.
  - simpl in Henc. injection Henc as <-. now destruct n.
  - apply Forall_cons in Hall as [[[id Hid] Hfit] Hall]. cbn [fst snd] in Hid, Hfit.
    cbn [append_params] in Henc. rewrite Hid in Henc.
    rewrite append_params_buf in Henc.
    destruct (append_params EmptyString logline) as [e|body'] eqn:E;
      [discriminate|].
    injection Henc as <-.
    apply getPixelParamID_inv in Hid as [Hrange Hname].
    destruct n as [|n]; [cbn [length] in Hn; lia|].
    destruct (IH body' n Hall eq_refl ltac:(cbn [length] in Hn; lia)) as [IHr IHl].
    unfold append.
    rewrite (appendVarUInt_eq _ (Z.of_nat _)), !append_assoc.
    change (EmptyString +:+ ?x) with x.
    split.
    + cbn [read_params].
      assert (Hne : Nat.eqb (remaining (appendVarUInt EmptyString id +:+
                 appendVarUInt EmptyString (Z.of_nat (Str.length value)) +:+ value +:+ body')) 0 = false).
      { unfold remaining. rewrite length_append.
        pose proof (varuint_bytes_length 9 (wrap64 id)) as Hlen.
        unfold appendVarUInt. change (EmptyString +:+ ?x) with x.
        apply Nat.eqb_neq. revert Hlen.
        generalize (Str.length (varuint_bytes 10 (wrap64 id))).
        generalize (Str.length
          (varuint_bytes 10 (wrap64 (Z.of_nat (Str.length value)))
             +:+ value +:+ body')).
        intros; lia. }
      rewrite Hne.
      rewrite readVarUInt_append by lia.
      rewrite Hname.
      rewrite readVarUInt_append by (unfold fits in Hfit; lia).
      unfold read. rewrite Nat2Z.id, drop_append, take_append.
      now rewrite IHr.
    + rewrite !length_append. cbn [length].
      pose proof (varuint_bytes_length 9 (wrap64 id)) as Hlen.
      unfold appendVarUInt. change (EmptyString +:+ ?x) with x.
      revert Hlen IHl.
      generalize (Str.length (varuint_bytes 10 (wrap64 id))).
      generalize (Str.length
          (varuint_bytes 10 (wrap64 (Z.of_nat (Str.length value))))).
      generalize (Str.length value). generalize (Str.length body').
      intros; lia.
Qed.

Lemma readVarUInt_from_shorter r : forall i acc v r',
  readVarUInt_from r i acc = inr (v, r') -> (remaining r' < remaining r)%nat.
Proof.
  induction r as [|c r IH]; intros i acc v r'; simpl; [discriminate|].
  destruct (Z.land (Z_of_byte c) 128 =? 0).
  - intros [= _ <-]. unfold remaining. lia.
  - intros H%IH. unfold remaining in *. simpl. lia.
Qed.

Lemma drop_shorter n : forall s t,
  Str.drop n s = Some t -> (Str.length t <= Str.length s)%nat.
Proof.
  induction n as [|n IH]; intros s t; simpl.
  - now intros [= ->].
  - destruct s as [|c s]; [discriminate|]. intros H%IH. simpl. lia.
Qed.

Lemma read_shorter r n s r' :
  read r n = inr (s, r') -> (remaining r' <= remaining r)%nat.
Proof.
  unfold read. destruct (Str.drop n r) as [rest|] eqn:E; [|discriminate].
  intros [= _ <-]. now apply drop_shorter in E.
Qed.

(** The count of rounds does not matter once it covers the unread bytes:
    the loop never stops for want of rounds. *)
Lemma read_params_rounds n : forall m r,
  (remaining r <= n)%nat -> (remaining r <= m)%nat ->
  read_params n r = read_params m r.
Proof.
  induction n as [|n IH]; intros m r Hn Hm.
  - destruct r; [|simpl in Hn; lia]. now destruct m.
  - destruct m as [|m].
    + destruct r; [reflexivity | simpl in Hm; lia].
    + cbn [read_params]. destruct (Nat.eqb (remaining r) 0); [reflexivity|].
      destruct (readVarUInt r) as [e|[id r1]] eqn:E1; [reflexivity|].
      apply readVarUInt_from_shorter in E1.
      destruct (getPixelParamName id); [reflexivity|].
      destruct (readVarUInt r1) as [e|[len r2]] eqn:E2; [reflexivity|].
      apply readVarUInt_from_shorter in E2.
      destruct (read r2 (Z.to_nat len)) as [e|[value r3]] eqn:E3; [reflexivity|].
      apply read_shorter in E3.
      rewrite (IH m r3) by lia. reflexivity.
Qed.

End EventRecordFacts.

Import StrFacts.

(** ** The deadline map *)

(** The guarded [emplace] keeps the deadline a user has. *)
Lemma update_flush_time_lookup uid ftime m :
  update_flush_time uid ftime m !! uid = Some (default ftime (m !! uid)).
Proof.
  unfold update_flush_time, emplace. destruct (m !! uid) as [old|] eqn:E; simpl.
  - destruct (old <? ftime); now rewrite E.
  - now rewrite lookup_insert_eq.
Qed.

Lemma update_flush_time_lookup_ne uid uid' ftime m :
  uid <> uid' -> update_flush_time uid ftime m !! uid' = m !! uid'.
Proof.
  intros Hne. unfold update_flush_time, emplace. destruct (m !! uid) as [old|] eqn:E.
  - now destruct (old <? ftime).
  - now rewrite lookup_insert_ne.
Qed.


(** ** The store *)

Module OrderFacts.

(** The key order is transitive. *)
Lemma ltb_trans s : forall t u,
  Str.ltb s t = true -> Str.ltb t u = true -> Str.ltb s u = true.
Proof.
  induction s as [|a s' IH]; intros [|b t] [|c u]; simpl; try discriminate;
    try reflexivity.
  destruct (N.ltb_spec (N_of_ascii a) (N_of_ascii b)),
           (N.ltb_spec (N_of_ascii b) (N_of_ascii c)),
           (N.ltb_spec (N_of_ascii a) (N_of_ascii c)),
           (N.eqb_spec (N_of_ascii a) (N_of_ascii b)),
           (N.eqb_spec (N_of_ascii b) (N_of_ascii c)),
           (N.eqb_spec (N_of_ascii a) (N_of_ascii c));
    try reflexivity; try discriminate; try lia.
  apply IH.
Qed.

End OrderFacts.

Module StoreFacts.
Import OrderFacts.
Import MDB.

Lemma elem_of_del kv key s :
  kv ∈ del key s <-> kv ∈ s /\ kv.1 <> key.
Proof.
  unfold del. rewrite list_elem_of_filter.
  destruct (String.eqb_spec kv.1 key); simpl; intuition.
Qed.

Lemma elem_of_del_all kv records : forall s,
  kv ∈ del_all records s <-> kv ∈ s /\ kv.1 ∉ records.*1.
Proof.
  induction records as [|r records IH]; intros s; simpl.
  - rewrite elem_of_nil. intuition.
  - unfold del_all in *. simpl. rewrite IH, elem_of_del, not_elem_of_cons.
    intuition.
Qed.

Lemma elem_of_put kv key value s :
  kv ∈ put key value s -> kv = (key, value) \/ kv ∈ s.
Proof.
  induction s as [|[k v] s IH]; simpl.
  - rewrite list_elem_of_singleton. now left.
  - destruct (Str.ltb key k); [rewrite elem_of_cons; tauto|].
    destruct (String.eqb key k).
    + rewrite !elem_of_cons. tauto.
    + rewrite !elem_of_cons. tauto.
Qed.

(** The scan from [uid] does not start after a key that begins with
    [uid]. *)
Lemma elem_of_getFirstOrGreater uid kv s :
  kv ∈ s -> Str.beginsWith kv.1 uid = true -> kv ∈ getFirstOrGreater uid s.
Proof.
  induction s as [|[k v] s IH]; simpl; [easy|].
  intros Hin Hp. destruct (Str.ltb k uid) eqn:E; [|exact Hin].
  apply elem_of_cons in Hin as [->|Hin]; [|now apply IH].
  simpl in Hp. apply beginsWith_not_ltb in Hp. congruence.
Qed.

Lemma sorted_getFirstOrGreater uid s :
  sorted s -> sorted (getFirstOrGreater uid s).
Proof.
  induction s as [|[k v] s IH]; simpl; [easy|].
  intros [Hk Hs]. destruct (Str.ltb k uid); [now apply IH|]. now split.
Qed.

Lemma getFirstOrGreater_not_below uid s :
  sorted s ->
  Forall (fun kv => Str.ltb kv.1 uid = false) (getFirstOrGreater uid s).
Proof.
  induction s as [|[k v] s IH]; simpl; [constructor|].
  intros [Hk Hs]. destruct (Str.ltb k uid) eqn:E; [now apply IH|].
  constructor; [exact E|].
  eapply Forall_impl; [exact Hk|]. intros [k' v'] Hlt. simpl in *.
  destruct (Str.ltb k' uid) eqn:E'; [|reflexivity].
  now rewrite (ltb_trans _ _ _ Hlt E') in E.
Qed.

(** In a sorted store the scan reaches every record whose key begins
    with [uid]. *)
Lemma elem_of_scan_range uid kv cursor :
  sorted cursor ->
  Forall (fun kv => Str.ltb kv.1 uid = false) cursor ->
  kv ∈ cursor -> Str.beginsWith kv.1 uid = true ->
  kv ∈ scan_range uid cursor.
Proof.
  induction cursor as [|[k v] cursor IH]; simpl; [easy|].
  intros [Hk Hs] Hge Hin Hp. apply Forall_cons in Hge as [Hge0 Hge].
  simpl in Hge0.
  destruct (Str.beginsWith k uid) eqn:E.
  - apply elem_of_cons in Hin as [->|Hin]; [now left|]. right. now apply IH.
  - apply elem_of_cons in Hin as [->|Hin]; [simpl in Hp; congruence|].
    rewrite Forall_forall in Hk. specialize (Hk _ Hin).
    rewrite (beginsWith_contiguous uid k kv.1) in Hp by assumption.
    discriminate.
Qed.

Lemma scan_range_reaches uid kv s :
  sorted s -> kv ∈ s -> Str.beginsWith kv.1 uid = true ->
  kv ∈ scan_range uid (getFirstOrGreater uid s).
Proof.
  intros Hs Hin Hp. apply elem_of_scan_range; auto.
  - now apply sorted_getFirstOrGreater.
  - now apply getFirstOrGreater_not_below.
  - now apply elem_of_getFirstOrGreater.
Qed.

Lemma scan_range_sublist uid kv cursor :
  kv ∈ scan_range uid cursor -> kv ∈ cursor /\ Str.beginsWith kv.1 uid = true.
Proof.
  induction cursor as [|[k v] cursor IH]; simpl; [now rewrite elem_of_nil|].
  destruct (Str.beginsWith k uid) eqn:E; [|now rewrite elem_of_nil].
  rewrite !elem_of_cons. intros [->|H]; [auto|]. destruct (IH H). auto.
Qed.

End StoreFacts.

(** ** The flush path *)

Section Flush.
Variable env : Env.

(** A scan touches the store, the log and the counter of invalid lines
    only; when it returns, the store has lost the records of its range. *)
Lemma flushSession_scan_frame u cursor : forall session st,
  match flushSession_scan u cursor session st with
  | Ok session' st' =>
      same_object st st' /\ uid session' = uid session /\
      txn st' = del_all (scan_range u cursor) (txn st)
  | Raise _ st' => same_object st st'
  end.
Proof.
  induction cursor as [|[key_str value] cursor IH]; intros session st.
  - simpl. repeat split.
  - cbn [flushSession_scan scan_range fst].
    destruct (Str.beginsWith key_str u); cbn [negb]; [|simpl; repeat split].
    destruct (Str.endsWith key_str "~cust").
    { specialize (IH (set_customer_key value session) (set_txn (MDB.del key_str) st)).
      destruct (flushSession_scan _ _ _ _); exact IH. }
    destruct (Str.drop _ key_str); [|repeat split].
    destruct (EventRecord.read_header value) as [e|[[time_s evid] reader]];
      [repeat split|].
    destruct (EventRecord.read_params _ reader) as [e|logline].
    + specialize (IH session (set_txn (MDB.del key_str)
                   (incr_loglines_invalid (add_log (log_invalid_logline e) st)))).
      destruct (flushSession_scan _ _ _ _); exact IH.
    + specialize (IH (session_insertLogline session (wrap64 (time_s * kMicrosPerSecond))
                        (Str.take 1 s) evid logline)
                     (set_txn (MDB.del key_str) st)).
      destruct (flushSession_scan _ _ _ _); exact IH.
Qed.

Lemma onSession_flush_times session st :
  sessions_flush_times_
    (match onSession env session st with Ok _ st' => st' | Raise _ st' => st' end)
  = sessions_flush_times_ st.
Proof.
  unfold onSession. destruct (joinSession env session); [reflexivity|].
  destruct (dry_run_ env); [reflexivity|].
  destruct (firstSeenTime session); reflexivity.
Qed.

Lemma flushSession_flush_times uid t st st' :
  flushSession env uid t st = Ok tt st' ->
  sessions_flush_times_ st' = sessions_flush_times_ st.
Proof.
  unfold flushSession.
  pose proof (flushSession_scan_frame uid (MDB.getFirstOrGreater uid (txn st))
                (mkSession uid EmptyString []) st) as F.
  destruct (flushSession_scan _ _ _ _) as [session st1|]; [|discriminate].
  destruct F as [[F _] _].
  destruct (Nat.eqb _ 0); intros [= <-]; [exact F|].
  pose proof (onSession_flush_times session st1) as O.
  destruct (onSession env session st1); simpl in *; congruence.
Qed.

(** A returning [flush] loop has called [flushSession] for the due users,
    in order, and erased them from the deadline map. *)
Lemma flush_loop_calls t iter : forall st st',
  flush_loop env iter t st = Ok tt st' ->
  flush_calls env t (due t iter) st st' /\
  sessions_flush_times_ st'
  = foldl (fun m u => delete u m) (sessions_flush_times_ st) (due t iter).
Proof.
  induction iter as [|[uid ftime] iter IH]; intros st st'; simpl.
  - intros [= <-]. split; [constructor | reflexivity].
  - unfold due. rewrite filter_cons. cbn [snd].
    destruct (Z.ltb_spec ftime t) as [Hlt|Hge].
    + rewrite decide_True by assumption.
      destruct (flushSession env uid t st) as [[] st1|] eqn:E; [|discriminate].
      intros H. apply IH in H as [Hc Hm]. split.
      * econstructor; eassumption.
      * rewrite Hm. simpl. now rewrite (flushSession_flush_times _ _ _ _ E).
    + rewrite decide_False by lia. apply IH.
Qed.

Lemma lookup_foldl_delete (us : list string) : forall (m : gmap string Z) k,
  foldl (fun m u => delete u m) m us !! k
  = if decide (k ∈ us) then None else m !! k.
Proof.
  induction us as [|u us IH]; intros m k; cbn [foldl].
  - destruct (decide (k ∈ [])) as [H|]; [now apply elem_of_nil in H | reflexivity].
  - rewrite IH.
    destruct (decide (k ∈ us)) as [H1|H1], (decide (k ∈ u :: us)) as [H2|H2];
      try reflexivity.
    + exfalso. apply H2. now right.
    + apply elem_of_cons in H2 as [->|]; [apply lookup_delete_eq | contradiction].
    + apply lookup_delete_ne. intros ->. apply H2. now left.
Qed.

Lemma elem_of_due t iter u :
  u ∈ due t iter <-> exists d, (u, d) ∈ iter /\ d < t.
Proof.
  unfold due. rewrite list_elem_of_fmap. split.
  - intros ([u' d] & -> & [H1 H2]%list_elem_of_filter). now exists d.
  - intros (d & H1 & H2). exists (u, d). split; [reflexivity|].
    apply list_elem_of_filter. now split.
Qed.

(** The boundary holds in whatever order the entries of the deadline map
    are visited. *)
Lemma flush_loop_boundary t iter st st' :
  (forall uid d, (uid, d) ∈ iter <-> sessions_flush_times_ st !! uid = Some d) ->
  flush_loop env iter t st = Ok tt st' ->
  (forall uid d, sessions_flush_times_ st' !! uid = Some d -> t <= d) /\
  flush_calls env t (due t iter) st st' /\
  forall uid d,
    sessions_flush_times_ st !! uid = Some d -> d < t ->
    uid ∈ due t iter /\ sessions_flush_times_ st' !! uid = None.
Proof.
  intros Hiter [Hc Hm]%flush_loop_calls. split; [|split; [exact Hc|]].
  - intros uid d Hd. rewrite Hm, lookup_foldl_delete in Hd.
    destruct (decide (uid ∈ due t iter)) as [|Hnin]; [discriminate|].
    destruct (Z.le_gt_cases t d) as [|Hlt]; [assumption|].
    exfalso. apply Hnin, elem_of_due. exists d. split; [|lia].
    now apply Hiter.
  - intros uid d Hd Hlt.
    assert (Hin : uid ∈ due t iter).
    { apply elem_of_due. exists d. split; [|assumption]. now apply Hiter. }
    split; [exact Hin|]. rewrite Hm, lookup_foldl_delete.
    now rewrite decide_True.
Qed.

End Flush.

(** ** Keys and scans *)

Module HexFacts.

Lemma count_append c s t :
  Str.count c (s +:+ t) = (Str.count c s + Str.count c t)%nat.
Proof.
  induction s as [|d s' IH]; simpl; [reflexivity|]. rewrite IH. lia.
Qed.

Lemma hex_digit_not_tilde v : Ascii.eqb (hex_digit (Z.land v 15)) tilde = false.
Proof.
  assert (H : forallb (fun k => negb (Ascii.eqb (hex_digit (Z.of_nat k)) tilde))
                      (seq 0 16) = true) by (vm_compute; reflexivity).
  rewrite forallb_forall in H.
  assert (Hb : 0 <= Z.land v 15 < 16).
  { change 15 with (Z.ones 4). rewrite Z.land_ones by lia.
    apply Z.mod_pos_bound. lia. }
  specialize (H (Z.to_nat (Z.land v 15))). rewrite Z2Nat.id in H by lia.
  apply negb_true_iff, H, in_seq. lia.
Qed.

Lemma count_tilde_hex_digits n : forall v,
  Str.count tilde (hex_digits n v) = 0%nat.
Proof.
  induction n as [|n IH]; intros v; simpl; [reflexivity|].
  rewrite count_append, IH. simpl. now rewrite hex_digit_not_tilde.
Qed.

Lemma beginsWith_count c s p :
  Str.beginsWith s (p +:+ String c EmptyString) = true ->
  (0 < Str.count c s)%nat.
Proof.
  intros [t ->]%beginsWith_inv. rewrite !count_append. simpl.
  rewrite Ascii.eqb_refl. lia.
Qed.

(** The key of an envelope does not begin with ["<uid>~"], whatever the
    uid. *)
Lemma sessionq_key_not_user v w uid :
  Str.beginsWith ("__sessionq-" +:+ (hex_digits 16 v +:+ hex_digits 16 w))
                 (uid +:+ "~") = false.
Proof.
  destruct (Str.beginsWith _ _) eqn:E; [|reflexivity].
  apply beginsWith_count in E. rewrite !count_append in E.
  rewrite !count_tilde_hex_digits in E. vm_compute in E. lia.
Qed.

End HexFacts.

Module ScanFacts.

Lemma omap_cons {A B : Type} (f : A -> option B) (x : A) (l : list A) :
  omap f (x :: l) = match f x with Some y => y :: omap f l | None => omap f l end.
Proof. reflexivity. Qed.

(** A scan over well-headed records returns; it collects the events of
    the records that decode, and logs and counts the others. *)
Lemma scan_returns uid cursor : forall session st,
  forallb (well_headed uid) (scan_range uid cursor) = true ->
  exists session' st',
    flushSession_scan uid cursor session st = Ok session' st' /\
    events session' = events session ++ omap (record_event uid) (scan_range uid cursor) /\
    log st' = log st ++ (log_invalid_logline <$> omap record_error (scan_range uid cursor)) /\
    stat_loglines_invalid_ st'
    = (stat_loglines_invalid_ st
       + N.of_nat (length (omap record_error (scan_range uid cursor))))%N.
Proof.
  induction cursor as [|[key_str value] cursor IH]; intros session st.
  - intros _. exists session, st. simpl. rewrite !app_nil_r, N.add_0_r. auto.
  - cbn [flushSession_scan scan_range fst].
    destruct (Str.beginsWith key_str uid); cbn [negb].
    2:{ intros _. exists session, st. simpl. rewrite !app_nil_r, N.add_0_r. auto. }
    cbn [forallb]. intros [Hw Hrest]%andb_prop.
    unfold well_headed in Hw. rewrite !omap_cons.
    remember (record_event uid (key_str, value)) as re eqn:Hre.
    remember (record_error (key_str, value)) as rr eqn:Hrr.
    unfold record_event, EventRecord.decode in Hre. unfold record_error in Hrr.
    cbn [fst snd] in *.
    destruct (Str.endsWith key_str "~cust").
    { subst re rr.
      destruct (IH (set_customer_key value session) (set_txn (MDB.del key_str) st) Hrest)
        as (session' & st' & -> & He & Hl & Hi).
      exists session', st'. auto. }
    cbn [orb] in Hw.
    destruct (Str.drop _ key_str) as [key_rest|]; [|discriminate].
    destruct (EventRecord.read_header value) as [e|[[time_s evid] reader]];
      [discriminate|].
    destruct (EventRecord.read_params _ reader) as [e|logline]; subst re rr.
    + destruct (IH session (set_txn (MDB.del key_str)
                 (incr_loglines_invalid (add_log (log_invalid_logline e) st))) Hrest)
        as (session' & st' & -> & He & Hl & Hi).
      exists session', st'. split; [reflexivity|]. split; [exact He|]. split.
      * rewrite Hl. simpl. now rewrite <- app_assoc.
      * rewrite Hi. simpl. lia.
    + destruct (IH (session_insertLogline session (wrap64 (time_s * kMicrosPerSecond))
                      (Str.take 1 key_rest) evid logline)
                   (set_txn (MDB.del key_str) st) Hrest)
        as (session' & st' & -> & He & Hl & Hi).
      exists session', st'. split; [reflexivity|]. split; [|auto].
      rewrite He. simpl. now rewrite <- app_assoc.
Qed.

(** A scan that returns has met well-headed records only. *)
Lemma scan_Ok_well_headed uid cursor : forall session st session' st',
  flushSession_scan uid cursor session st = Ok session' st' ->
  forallb (well_headed uid) (scan_range uid cursor) = true.
Proof.
  induction cursor as [|[key_str value] cursor IH]; intros session st session' st';
    [reflexivity|].
  cbn [flushSession_scan scan_range fst].
  destruct (Str.beginsWith key_str uid); cbn [negb]; [|reflexivity].
  cbn [forallb]. unfold well_headed at 1. cbn [fst snd].
  destruct (Str.endsWith key_str "~cust"); [now apply IH|]. cbn [orb].
  destruct (Str.drop _ key_str) as [key_rest|]; [|discriminate].
  destruct (EventRecord.read_header value) as [e|[[time_s evid] reader]];
    [discriminate|].
  destruct (EventRecord.read_params _ reader) as [e|logline]; now apply IH.
Qed.

Lemma scan_customer_key uid cursor : forall session st session' st',
  flushSession_scan uid cursor session st = Ok session' st' ->
  customer_key session' = customer_key session \/
  exists k, (k, customer_key session') ∈ scan_range uid cursor.
Proof.
  induction cursor as [|[key_str value] cursor IH]; intros session st session' st'.
  - intros [= <- _]. now left.
  - cbn [flushSession_scan scan_range fst].
    destruct (Str.beginsWith key_str uid); cbn [negb]; [|intros [= <- _]; now left].
    destruct (Str.endsWith key_str "~cust").
    { intros [H|[k H]]%IH.
      - right. exists key_str. rewrite H. now left.
      - right. exists k. now right. }
    destruct (Str.drop _ key_str) as [key_rest|]; [|discriminate].
    destruct (EventRecord.read_header value) as [e|[[time_s evid] reader]];
      [discriminate|].
    destruct (EventRecord.read_params _ reader) as [e|logline].
    + intros [H|[k H]]%IH; [now left|]. right. exists k. now right.
    + intros [H|[k H]]%IH; [now left|]. right. exists k. now right.
Qed.

(** A record that decodes adds its event to the session; the scan deletes
    it and moves on. *)
Lemma flushSession_scan_event uid key_str value cursor session st
      time_s evid logline key_rest :
  Str.beginsWith key_str uid = true ->
  Str.endsWith key_str "~cust" = false ->
  Str.drop (Str.length uid + 1) key_str = Some key_rest ->
  EventRecord.decode value = inr (time_s, evid, logline) ->
  flushSession_scan uid ((key_str, value) :: cursor) session st
  = flushSession_scan uid cursor
      (session_insertLogline session (wrap64 (time_s * kMicrosPerSecond))
                             (Str.take 1 key_rest) evid logline)
      (set_txn (MDB.del key_str) st).
Proof.
  intros Hp Hc Hd Hdec. cbn [flushSession_scan]. rewrite Hp, Hc, Hd. cbn [negb].
  unfold EventRecord.decode in Hdec.
  destruct (EventRecord.read_header value) as [e|[[t' e'] r]]; [discriminate|].
  destruct (EventRecord.read_params (BinaryMessage.remaining r) r) as [e|l]; [discriminate|].
  now injection Hdec as -> -> ->.
Qed.

End ScanFacts.

Import HexFacts ScanFacts OrderFacts StoreFacts.

Section FlushSession.
Variable env : Env.

Lemma onSession_cases session st :
  match onSession env session st with
  | Ok _ st' =>
      (txn st' = txn st \/
       exists buf, txn st' = MDB.put (next_envelope_key env st) buf (txn st)) /\
      stat_joined_sessions_ st' = stat_joined_sessions_ st /\
      stat_loglines_invalid_ st' = stat_loglines_invalid_ st
  | Raise _ st' => st' = st
  end.
Proof.
  unfold onSession. destruct (joinSession env session); [reflexivity|].
  destruct (dry_run_ env); [simpl; auto|].
  destruct (firstSeenTime session); [|reflexivity].
  simpl. split; [|auto]. right. eexists. reflexivity.
Qed.

Lemma scan_store uid st session st1 kv :
  MDB.sorted (txn st) ->
  flushSession_scan uid (MDB.getFirstOrGreater uid (txn st))
                    (mkSession uid EmptyString []) st = Ok session st1 ->
  kv ∈ txn st1 -> kv ∈ txn st /\ Str.beginsWith kv.1 uid = false.
Proof.
  intros Hs Hscan Hin.
  pose proof (flushSession_scan_frame uid (MDB.getFirstOrGreater uid (txn st))
                (mkSession uid EmptyString []) st) as F.
  rewrite Hscan in F. destruct F as (_ & _ & Htxn).
  rewrite Htxn in Hin. apply elem_of_del_all in Hin as [Hin Hnot].
  split; [exact Hin|].
  destruct (Str.beginsWith kv.1 uid) eqn:E; [|reflexivity].
  exfalso. apply Hnot. apply list_elem_of_fmap. exists kv. split; [reflexivity|].
  now apply scan_range_reaches.
Qed.

(** A record left after [flushSession] is an old record whose key does
    not begin with the uid, or the envelope just written. *)
Lemma flushSession_store uid t st st' kv :
  MDB.sorted (txn st) ->
  flushSession env uid t st = Ok tt st' ->
  kv ∈ txn st' ->
  (kv ∈ txn st /\ Str.beginsWith kv.1 uid = false) \/
  kv.1 = next_envelope_key env st.
Proof.
  intros Hs. unfold flushSession.
  destruct (flushSession_scan _ _ _ _) as [session st1|] eqn:Hscan; [|discriminate].
  pose proof (flushSession_scan_frame uid (MDB.getFirstOrGreater uid (txn st))
                (mkSession uid EmptyString []) st) as F.
  rewrite Hscan in F. destruct F as ((_ & _ & _ & Hrnd) & _ & _).
  assert (Hkey : next_envelope_key env st1 = next_envelope_key env st).
  { unfold next_envelope_key, hex128. simpl. now rewrite Hrnd. }
  destruct (Nat.eqb _ 0).
  - intros [= <-] Hin. left. eapply scan_store; eauto.
  - pose proof (onSession_cases session st1) as O.
    destruct (onSession env session st1) as [[] st2|e st2].
    + destruct O as ([Ht|[buf Ht]] & _); intros [= <-]; simpl; rewrite Ht.
      * intros Hin. left. eapply scan_store; eauto.
      * intros [->|Hin]%elem_of_put.
        -- right. simpl. now rewrite Hkey.
        -- left. eapply scan_store; eauto.
    + subst st2. intros [= <-] Hin. left. eapply scan_store; eauto.
Qed.



End FlushSession.


(** ** The store stays in key order *)

Module SortedFacts.
Import MDB.

Lemma sortedb_sorted s : sortedb s = true -> sorted s.
Proof.
  induction s as [|[k v] s IH]; simpl; [easy|].
  intros [Hk Hs]%andb_prop. split; [|now apply IH].
  apply Forall_forall. intros kv Hin%list_elem_of_In.
  rewrite forallb_forall in Hk. now apply Hk.
Qed.

(** Two different keys are ordered one way or the other. *)
Lemma ltb_total s : forall t,
  Str.ltb s t = false -> String.eqb s t = false -> Str.ltb t s = true.
Proof.
  induction s as [|a s' IH]; intros [|b t]; simpl; try discriminate;
    try reflexivity.
  destruct (N.ltb_spec (N_of_ascii a) (N_of_ascii b)); [discriminate|].
  destruct (N.eqb_spec (N_of_ascii a) (N_of_ascii b)) as [E|E].
  - apply N_of_ascii_inj in E as ->. rewrite Ascii.eqb_refl, N.ltb_irrefl, N.eqb_refl.
    apply IH.
  - intros _ _. destruct (N.ltb_spec (N_of_ascii b) (N_of_ascii a)); [reflexivity|lia].
Qed.

(** [put] and [del] keep the store in key order. *)
Lemma put_sorted key value s : sorted s -> sorted (put key value s).
Proof.
  induction s as [|[k v] s IH]; simpl; [intros _; split; [constructor|exact I]|].
  intros [Hk Hs].
  destruct (Str.ltb key k) eqn:E1.
  - split; [|now split]. constructor; [exact E1|].
    eapply Forall_impl; [exact Hk|]. intros kv H. simpl in *.
    eapply ltb_trans; eauto.
  - destruct (String.eqb_spec key k) as [->|Hne].
    + now split.
    + split; [|now apply IH].
      apply Forall_forall. intros kv [->|Hin]%elem_of_put.
      * simpl. apply ltb_total; [exact E1|]. now apply String.eqb_neq.
      * rewrite Forall_forall in Hk. now apply Hk.
Qed.

Lemma del_sorted key s : sorted s -> sorted (del key s).
Proof.
  induction s as [|[k v] s IH]; [easy|].
  intros [Hk Hs]. unfold del, Store. rewrite filter_cons. fold (del key s).
  destruct (decide _).
  - split; [|now apply IH]. apply Forall_forall.
    intros kv [Hin _]%elem_of_del.
    rewrite Forall_forall in Hk. now apply Hk.
  - now apply IH.
Qed.

Lemma del_all_sorted records : forall s, sorted s -> sorted (del_all records s).
Proof.
  induction records as [|r records IH]; intros s Hs; [exact Hs|].
  apply IH. now apply del_sorted.
Qed.

End SortedFacts.

Section Invariant.
Variable env : Env.
Import SortedFacts.

(** The store stays in key order under every operation of the
    sessionizer. *)
Lemma appendToSession_sorted customer_key time uid evid evtype logline st :
  MDB.sorted (txn st) ->
  MDB.sorted (txn (state_of
    (appendToSession env customer_key time uid evid evtype logline st))).
Proof.
  intros Hs. unfold appendToSession.
  destruct (EventRecord.encode _ _ _); simpl; [exact Hs|].
  now repeat apply put_sorted.
Qed.

Lemma insertLogline_sorted customer_key time log_line st :
  MDB.sorted (txn st) ->
  MDB.sorted (txn (state_of (insertLogline env customer_key time log_line st))).
Proof.
  intros Hs. unfold insertLogline.
  destruct (parseQueryString env log_line) as [e|params]; [exact Hs|].
  assert (H : MDB.sorted (txn (state_of
              (insertLogline_try env customer_key time params (incr_loglines_total st))))).
  { unfold insertLogline_try.
    repeat match goal with
           | |- context [match ?x with _ => _ end] => destruct x; try exact Hs
           end.
    now apply appendToSession_sorted. }
  destruct (insertLogline_try _ _ _ _ _); exact H.
Qed.

Lemma flushSession_sorted uid t st st' :
  MDB.sorted (txn st) ->
  flushSession env uid t st = Ok tt st' ->
  MDB.sorted (txn st').
Proof.
  intros Hs. unfold flushSession.
  pose proof (flushSession_scan_frame uid (MDB.getFirstOrGreater uid (txn st))
                (mkSession uid EmptyString []) st) as F.
  destruct (flushSession_scan _ _ _ _) as [session st1|e st1]; [|discriminate].
  destruct F as (_ & _ & Htxn).
  assert (Hs1 : MDB.sorted (txn st1)) by (rewrite Htxn; now apply del_all_sorted).
  destruct (Nat.eqb _ 0); [now intros [= <-]|].
  pose proof (onSession_cases env session st1) as O.
  destruct (onSession env session st1) as [[] st2|e st2]; intros [= <-]; simpl.
  - destruct O as ([->|[buf ->]] & _); [exact Hs1 | now apply put_sorted].
  - now subst st2.
Qed.
Lemma insertLogline_raw_sorted log_line st :
  MDB.sorted (txn st) ->
  MDB.sorted (txn (state_of (insertLogline_raw env log_line st))).
Proof.
  intros Hs. unfold insertLogline_raw.
  repeat match goal with
         | |- context [match ?x with _ => _ end] => destruct x; try exact Hs
         end.
  now apply insertLogline_sorted.
Qed.

Lemma flush_loop_sorted t iter : forall st st',
  MDB.sorted (txn st) ->
  flush_loop env iter t st = Ok tt st' ->
  MDB.sorted (txn st').
Proof.
  induction iter as [|[uid ftime] iter IH]; intros st st' Hs; simpl.
  - now intros [= <-].
  - destruct (ftime <? t); [|now apply IH].
    destruct (flushSession env uid t st) as [[] st1|] eqn:E; [|discriminate].
    apply IH. simpl. eapply flushSession_sorted; eauto.
Qed.

End Invariant.

(** ** The pipe wrapper and the [c] parameter *)

Lemma count_zero_find s c : Str.count c s = 0%nat -> Str.find s c = None.
Proof.
  induction s as [|d s' IH]; simpl; [reflexivity|].
  destruct (Ascii.eqb d c); [discriminate|]. intros H. now rewrite IH.
Qed.

Lemma find_from_S d s c pos :
  find_from (String d s) c (S pos) = S <$> find_from s c pos.
Proof.
  unfold find_from. simpl. destruct (Str.drop pos s) as [t|]; [|reflexivity].
  now destruct (Str.find t c).
Qed.

(** With fewer than two separators, the search for the second fails. *)
Lemma count_one_find_from s c : forall i,
  Str.find s c = Some i -> (Str.count c s < 2)%nat ->
  find_from s c (i + 1) = None.
Proof.
  induction s as [|d s' IH]; intros i; simpl; [discriminate|].
  destruct (Ascii.eqb d c).
  - intros [= <-] Hc. unfold find_from. simpl.
    rewrite count_zero_find by lia. reflexivity.
  - destruct (Str.find s' c) as [j|]; [|discriminate].
    intros [= <-] Hc. simpl. rewrite find_from_S, IH by (auto; lia).
    reflexivity.
Qed.

(** The first [~] of [uid~rest] is the one after [uid], when [uid] has
    none. *)
Lemma find_append_tilde (uid rest : string) :
  Str.find uid tilde = None ->
  Str.find (uid +:+ String tilde rest) tilde = Some (Str.length uid).
Proof.
  induction uid as [|c uid' IH]; simpl; [reflexivity|].
  destruct (Ascii.eqb c tilde); [discriminate|].
  destruct (Str.find uid' tilde); [discriminate|].
  intros _. now rewrite IH.
Qed.

Lemma take_length s : Str.take (Str.length s) s = s.
Proof. induction s as [|c s' IH]; simpl; [reflexivity | now rewrite IH]. Qed.

Lemma drop_S_append s c t :
  Str.drop (Str.length s + 1) (s +:+ String c t) = Some t.
Proof. induction s as [|d s' IH]; simpl; [now destruct t | exact IH]. Qed.

(** ** [flushSession] returns when the scan does *)


(* ===================================================================== *)
(** * The claims *)
(* ===================================================================== *)

Import BinaryMessage EventRecord VarUInt EventRecordFacts.

(** ** Deadlines on append (C1) *)

(** What [appendToSession] leaves in the deadline map for its user: the
    new deadline when the user had none, the deadline the user had
    otherwise, whether older or not. *)
Lemma appendToSession_deadline env customer_key time uid evid evtype logline st st' :
  appendToSession env customer_key time uid evid evtype logline st = Ok tt st' ->
  sessions_flush_times_ st' !! uid
  = Some (default (wrap64 (time + kSessionIdleTimeoutSeconds env * kMicrosPerSecond))
                  (sessions_flush_times_ st !! uid)).
Proof.
  unfold appendToSession.
  destruct (EventRecord.encode _ _ _) as [e|buf]; [discriminate|].
  intros [= <-]. simpl. apply update_flush_time_lookup.
Qed.

(** C1. The claim: after an append the deadline stored for the user is the
    maximum of the previous deadline and event time plus idle timeout, so
    that a later event extends the session. The code misses it: user [u1]
    has the deadline (1000 + 1800) s and an event at second 2500 is
    appended; the guard of [appendToSession] sees that the stored deadline
    is older, but [emplace] leaves an existing entry as it is, and the
    deadline stays (1000 + 1800) s where the maximum is (2500 + 1800) s. *)
Lemma appendToSession_keeps_earlier_deadline :
  let st := Demo.one_event in
  sessions_flush_times_ st !! "u1" = Some (2800 * 1000000) /\
  exists st',
    appendToSession Demo.env "CUST1" (2500 * 1000000) "u1" "e2" "q" [] st = Ok tt st' /\
    sessions_flush_times_ st' !! "u1" = Some (2800 * 1000000) /\
    Z.max (2800 * 1000000) (2500 * 1000000 + 1800 * 1000000) = 4300 * 1000000.
Proof.
  vm_compute. split; [reflexivity|]. eexists. split; [reflexivity|].
  split; reflexivity.
Qed.

(** What follows for the second scenario of idle extension: after the
    events at seconds 1000 and 2500, a flush at second 2801 already ends
    the session of [u1] and writes its envelope. *)
Lemma idle_extension_lost :
  let st' := state_of (flush Demo.env (2801 * 1000000) Demo.two_events) in
  sessions_flush_times_ Demo.two_events !! "u1" = Some (2800 * 1000000) /\
  flush Demo.env (2801 * 1000000) Demo.two_events = Ok tt st' /\
  sessions_flush_times_ st' !! "u1" = None /\
  MDB.keys (txn st') = ["__sessionq-00000000000000020000000000000003"].
Proof. vm_compute. repeat split. Qed.

(** ** A failing join target (C2) *)

(** C2, as the code has it. When the scan of [flushSession] has found a
    customer key and the call of the join target throws, [flushSession]
    returns normally, the failure is logged and no envelope is written:
    every record of the store afterwards was there before. The counter of
    joined sessions is incremented all the same. *)
Theorem flushSession_target_fails
    (env : Env) (uid : string) (t : Z) (st : State)
    (session : TrackedSession) (st1 : State) (e : Exn) :
  flushSession_scan uid (MDB.getFirstOrGreater uid (txn st))
                    (mkSession uid EmptyString []) st = Ok session st1 ->
  (0 < Str.length (customer_key session))%nat ->
  joinSession env session = inl e ->
  exists st',
    flushSession env uid t st = Ok tt st' /\
    (forall kv, kv ∈ txn st' -> kv ∈ txn st) /\
    stat_joined_sessions_ st' = (stat_joined_sessions_ st + 1)%N /\
    log st' = log st1 ++ [log_onSession_crashed e].
Proof.
  intros Hscan Hcust Hjoin.
  pose proof (flushSession_scan_frame uid (MDB.getFirstOrGreater uid (txn st))
                (mkSession uid EmptyString []) st) as F.
  rewrite Hscan in F. destruct F as ((_ & _ & Hjoined & _) & _ & Htxn).
  unfold flushSession. rewrite Hscan.
  destruct (Nat.eqb_spec (Str.length (customer_key session)) 0) as [E|_]; [lia|].
  unfold onSession. rewrite Hjoin.
  eexists. split; [reflexivity|]. simpl. split; [|split].
  - intros kv Hin. rewrite Htxn in Hin. now apply elem_of_del_all in Hin as [Hin _].
  - now rewrite Hjoined.
  - reflexivity.
Qed.

Lemma flushSession_target_fails_witness :
  let st := Demo.one_event in
  let r := flushSession_scan "u1" (MDB.getFirstOrGreater "u1" (txn st))
                             (mkSession "u1" EmptyString []) st in
  let session := result_of (mkSession EmptyString EmptyString []) r in
  let st1 := state_of r in
  r = Ok session st1 /\
  exists st',
    flushSession Demo.env_failing_target "u1" 2800000001 st = Ok tt st' /\
    (forall kv, kv ∈ txn st' -> kv ∈ txn st) /\
    stat_joined_sessions_ st' = (stat_joined_sessions_ st + 1)%N /\
    log st' = log st1 ++ [log_onSession_crashed target_failure].
Proof.
  intros st r session st1.
  assert (E : r = Ok session st1) by (vm_compute; reflexivity).
  split; [exact E|].
  apply (flushSession_target_fails Demo.env_failing_target "u1" 2800000001 st
           session st1 target_failure E).
  - vm_compute. lia.
  - reflexivity.
Defined.

(** C2 as stated fails: user [u1] has one event and a customer key, the
    target throws, and the counter of joined sessions goes from 0 to 1. *)
Lemma target_failure_still_counted :
  let st := Demo.one_event in
  let r := flushSession_scan "u1" (MDB.getFirstOrGreater "u1" (txn st))
                             (mkSession "u1" EmptyString []) st in
  customer_key (result_of (mkSession EmptyString EmptyString []) r) = "CUST1" /\
  joinSession Demo.env_failing_target
              (result_of (mkSession EmptyString EmptyString []) r)
    = inl target_failure /\
  exists st',
    flushSession Demo.env_failing_target "u1" 2800000001 st = Ok tt st' /\
    stat_joined_sessions_ st = 0%N /\
    stat_joined_sessions_ st' = 1%N.
Proof. vm_compute. split; [reflexivity|]. split; [reflexivity|]. eexists. repeat split. Qed.

(** ** A malformed pipe wrapper (C3) *)

(** C3, as the code has it. A raw line with fewer than two [|] separators
    makes the raw-line insert fail with a runtime error before anything
    else happens: the state is the one before the call, so no counter is
    incremented and no event is stored. *)
Theorem insertLogline_raw_malformed_wrapper
    (env : Env) (log_line : string) (st : State) :
  (Str.count pipe log_line < 2)%nat ->
  insertLogline_raw env log_line st = Raise kRuntimeError st.
Proof.
  intros Hc. unfold insertLogline_raw.
  destruct (Str.find log_line pipe) as [c_end|] eqn:E; [|reflexivity].
  now rewrite (count_one_find_from _ _ _ E Hc).
Qed.

Lemma insertLogline_raw_malformed_wrapper_witness :
  (Str.count pipe "CUST1|1000" < 2)%nat /\
  insertLogline_raw Demo.env "CUST1|1000" Demo.init = Raise kRuntimeError Demo.init.
Proof.
  split; [vm_compute; lia|].
  apply insertLogline_raw_malformed_wrapper. vm_compute. lia.
Defined.

(** C3 as stated fails: the line [CUST1|1000] has one separator, and the
    insert neither fails with a parse error nor counts an invalid line. *)
Lemma malformed_wrapper_not_ParseError :
  (Str.count pipe "CUST1|1000" < 2)%nat /\
  ~ (exists st',
       insertLogline_raw Demo.env "CUST1|1000" Demo.init = Raise kParseError st' /\
       stat_loglines_invalid_ st' = (stat_loglines_invalid_ Demo.init + 1)%N /\
       txn st' = txn Demo.init).
Proof.
  split; [vm_compute; lia|].
  intros (st' & H & _). vm_compute in H. discriminate.
Qed.

(** ** Rebuilding the deadlines (C4) *)

(** C4. The claim: the deadlines [importTimeoutList] rebuilds are those of
    replaying the inserts, and for two persisted events of one user at
    seconds 1000 and 2500 the rebuilt deadline is (2500 + 1800) s. The code
    misses it: the store below is the one the two inserts leave behind, the
    event of second 1000 has the smaller key, and the rebuilt deadline is
    (1000 + 1800) s, because [emplace] does not replace the entry the first
    event made. *)
Lemma importTimeoutList_first_key_wins :
  txn Demo.two_events = Demo.persisted /\
  exists st',
    importTimeoutList Demo.env (mkState ∅ 0 0 0 0 [] Demo.persisted) = Ok tt st' /\
    sessions_flush_times_ st' !! "u1" = Some ((1000 + 1800) * 1000000).
Proof.
  vm_compute. split; [reflexivity|]. eexists. split; reflexivity.
Qed.

(** With a generator whose values fall, the later event has the smaller
    key: replaying the two inserts leaves (1000 + 1800) s, the rebuilt
    deadline is (2500 + 1800) s, and the two maps differ. *)
Lemma importTimeoutList_differs_from_replay :
  let replayed :=
    state_of (insertLogline_raw Demo.env_descending "CUST1|2500|c=u1~e2&e=q"
      (state_of (insertLogline_raw Demo.env_descending "CUST1|1000|c=u1~e1&e=q"
                                        Demo.init))) in
  sessions_flush_times_ replayed !! "u1" = Some ((1000 + 1800) * 1000000) /\
  exists st',
    importTimeoutList Demo.env_descending (mkState ∅ 0 0 0 0 [] (txn replayed))
      = Ok tt st' /\
    sessions_flush_times_ st' !! "u1" = Some ((2500 + 1800) * 1000000).
Proof.
  vm_compute. split; [reflexivity|]. eexists. split; reflexivity.
Qed.

(** ** Event records that do not decode (C5) *)





(** ** The round trip of the event record (C6) *)

(** C6. For every timestamp [time_s] (a [uint64_t]), event id and list of
    parameters whose names are all registered, the record [appendToSession]
    writes decodes, as [flushSession] reads it, to the same timestamp, event
    id and parameters in the same order. *)
Theorem event_record_roundtrip (time_s : Z) (eid : string) (params : ParamList) :
  0 <= time_s < 2 ^ 64 ->
  fits eid ->
  Forall (fun p => registered p.1 /\ fits p.2) params ->
  exists buf,
    EventRecord.encode time_s eid params = inr buf /\
    EventRecord.decode buf = inr (time_s, eid, params).
Proof.
  intros Ht He Hall. unfold encode.
  rewrite append_params_buf.
  destruct (append_params EmptyString params) as [e|body] eqn:E.
  - exfalso. clear -Hall E. revert E.
    generalize EmptyString.
    induction params as [|[name value] params IH]; intros buf;
      cbn [append_params]; [discriminate|].
    apply Forall_cons in Hall as [[[id Hid] _] Hall]. cbn [fst] in Hid.
    rewrite Hid. now apply IH.
  - eexists. split; [reflexivity|].
    destruct (read_params_append_params params body (length params) Hall E)
      as [_ Hl]; [reflexivity|].
    destruct (read_params_append_params params body (Str.length body) Hall E Hl)
      as [Hr _].
    unfold decode, read_header, append.
    rewrite (appendVarUInt_eq _ (Z.of_nat _)), !append_assoc.
    rewrite readVarUInt_append by lia.
    rewrite readVarUInt_append by (unfold fits in He; lia).
    unfold read. rewrite Nat2Z.id, drop_append, take_append.
    unfold remaining. now rewrite Hr.
Qed.

Lemma event_record_roundtrip_witness :
  exists buf,
    EventRecord.encode 1000 "e1" [("qstr~en", "hello"); ("i", "p42")] = inr buf /\
    EventRecord.decode buf = inr (1000, "e1", [("qstr~en", "hello"); ("i", "p42")]).
Proof.
  apply (event_record_roundtrip 1000 "e1" [("qstr~en", "hello"); ("i", "p42")]).
  - lia.
  - unfold fits. simpl. lia.
  - repeat constructor; try (unfold fits; simpl; lia).
    + exists 102. vm_compute. reflexivity.
    + exists 11. vm_compute. reflexivity.
Defined.

(** ** The flush boundary (C7) *)

(** C7. After [flush] at stream time [t] has returned, every user left in
    the deadline map has a deadline of at least [t], and every user whose
    deadline was before [t] has been flushed, by a call of [flushSession]
    that returned, and is no longer in the map. *)
Theorem flush_boundary (env : Env) (t : Z) (st st' : State) :
  flush env t st = Ok tt st' ->
  (forall uid d, sessions_flush_times_ st' !! uid = Some d -> t <= d) /\
  exists calls,
    flush_calls env t calls st st' /\
    forall uid d,
      sessions_flush_times_ st !! uid = Some d -> d < t ->
      uid ∈ calls /\ sessions_flush_times_ st' !! uid = None.
Proof.
  unfold flush. intros Hf.
  destruct (flush_loop_boundary env t (map_to_list (sessions_flush_times_ st)) st st')
    as (Hleft & Hcalls & Hdue);
    [|exact Hf|].
  - intros uid d. apply elem_of_map_to_list.
  - split; [exact Hleft|]. eexists. split; [exact Hcalls | exact Hdue].
Qed.

Lemma flush_boundary_witness :
  let st' := state_of (flush Demo.env 2800000001 Demo.two_users) in
  flush Demo.env 2800000001 Demo.two_users = Ok tt st' /\
  (forall uid d, sessions_flush_times_ st' !! uid = Some d -> 2800000001 <= d) /\
  exists calls,
    flush_calls Demo.env 2800000001 calls Demo.two_users st' /\
    forall uid d,
      sessions_flush_times_ Demo.two_users !! uid = Some d -> d < 2800000001 ->
      uid ∈ calls /\ sessions_flush_times_ st' !! uid = None.
Proof.
  intros st'.
  assert (H : flush Demo.env 2800000001 Demo.two_users = Ok tt st')
    by (vm_compute; reflexivity).
  split; [exact H|]. exact (flush_boundary Demo.env 2800000001 _ _ H).
Defined.

(** ** Scan and drain (C8) *)

(** C8. After [flushSession] for user [uid] has returned, no key that begins
    with ["<uid>~"] is left in the store: neither the customer-key record
    nor an event record of the user. The store is in key order, as every
    store of the sessionizer is. *)
Theorem flushSession_drains_user
    (env : Env) (uid : string) (t : Z) (st st' : State) :
  MDB.sorted (txn st) ->
  flushSession env uid t st = Ok tt st' ->
  forall k v, (k, v) ∈ txn st' -> Str.beginsWith k (uid +:+ "~") = false.
Proof.
  intros Hs Hf k v Hin.
  destruct (flushSession_store env _ _ _ _ _ Hs Hf Hin) as [[_ Hp]|Hk]; simpl in *.
  - destruct (Str.beginsWith k (uid +:+ "~")) eqn:E; [|reflexivity].
    apply beginsWith_weaken in E. congruence.
  - rewrite Hk. apply sessionq_key_not_user.
Qed.

Lemma flushSession_drains_user_witness :
  let st' := state_of (flushSession Demo.env "u1" 2800000001 Demo.two_events) in
  MDB.sorted (txn Demo.two_events) /\
  flushSession Demo.env "u1" 2800000001 Demo.two_events = Ok tt st' /\
  forall k v, (k, v) ∈ txn st' -> Str.beginsWith k ("u1" +:+ "~") = false.
Proof.
  intros st'.
  assert (Hs : MDB.sorted (txn Demo.two_events)) 
    by (apply SortedFacts.sortedb_sorted; vm_compute; reflexivity).
  assert (H : flushSession Demo.env "u1" 2800000001 Demo.two_events = Ok tt st')
    by (vm_compute; reflexivity).
  split; [exact Hs|]. split; [exact H|].
  exact (flushSession_drains_user Demo.env "u1" 2800000001 _ _ Hs H).
Defined.

(** ** A user who does not belong to the shard (C9) *)

(** C9. When the [c] parameter of a line names a user [u] (non-empty, no
    [~]) and a non-empty event id, and the shard predicate does not accept
    [u], the insert returns normally, [loglines_total] goes up by one, and
    the store, the deadline map and [loglines_invalid] are as before. *)
Theorem insertLogline_shard_miss
    (env : Env) (customer_key : string) (time : Z) (log_line : string)
    (st : State) (params : ParamList) (u eid : string) :
  parseQueryString env log_line = inr params ->
  getParam params "c" = Some (u +:+ "~" +:+ eid) ->
  Str.find u tilde = None ->
  (0 < Str.length u)%nat -> (0 < Str.length eid)%nat ->
  testUID env u = false ->
  exists st',
    insertLogline env customer_key time log_line st = Ok tt st' /\
    stat_loglines_total_ st' = (stat_loglines_total_ st + 1)%N /\
    txn st' = txn st /\
    sessions_flush_times_ st' = sessions_flush_times_ st /\
    stat_loglines_invalid_ st' = stat_loglines_invalid_ st.
Proof.
  intros Hparse Hc Hfind Hu He Hshard.
  exists (incr_loglines_total st). split; [|repeat split].
  unfold insertLogline, insertLogline_try. rewrite Hparse, Hc.
  change (u +:+ "~" +:+ eid) with (u +:+ String tilde eid).
  rewrite find_append_tilde by assumption.
  unfold Str.substr. cbn [Str.drop].
  rewrite take_append, drop_S_append, length_append. cbn [Str.length].
  replace (Str.length u + S (Str.length eid) - Str.length u - 1)%nat
    with (Str.length eid) by lia.
  rewrite take_length, Hshard.
  destruct u; [simpl in Hu; lia|]. destruct eid; [simpl in He; lia|].
  reflexivity.
Qed.

Lemma insertLogline_shard_miss_witness :
  exists st',
    insertLogline Demo.env_shard "CUST1" (1000 * 1000000) "c=u3~e1&e=q" Demo.init
      = Ok tt st' /\
    stat_loglines_total_ st' = (stat_loglines_total_ Demo.init + 1)%N /\
    txn st' = txn Demo.init /\
    sessions_flush_times_ st' = sessions_flush_times_ Demo.init /\
    stat_loglines_invalid_ st' = stat_loglines_invalid_ Demo.init.
Proof.
  apply (insertLogline_shard_miss Demo.env_shard "CUST1" (1000 * 1000000)
           "c=u3~e1&e=q" Demo.init [("c", "u3~e1"); ("e", "q")] "u3" "e1").
  - vm_compute. reflexivity.
  - reflexivity.
  - reflexivity.
  - simpl. lia.
  - simpl. lia.
  - reflexivity.
Defined.

(** ** Users whose ids share a prefix (C10) *)

(** C10. [flushSession] for user [uid] works on every record whose key
    begins with the bare string [uid]: after it has returned, the only key
    beginning with [uid] that can be left is the key of the envelope just
    written; no record ["<other>~..."] of a user [other] whose id begins
    with [uid] is left; and the session handed on holds the event of every
    such record that decodes. The store is in key order. *)
Theorem flushSession_consumes_bare_prefix
    (env : Env) (uid : string) (t : Z) (st st' : State) :
  MDB.sorted (txn st) ->
  flushSession env uid t st = Ok tt st' ->
  (forall k v, (k, v) ∈ txn st' -> Str.beginsWith k uid = true ->
               k = next_envelope_key env st) /\
  (forall other k v,
     Str.beginsWith other uid = true ->
     Str.beginsWith k (other +:+ "~") = true -> (k, v) ∉ txn st') /\
  exists session st1,
    flushSession_scan uid (MDB.getFirstOrGreater uid (txn st))
                      (mkSession uid EmptyString []) st = Ok session st1 /\
    forall kv ev,
      kv ∈ txn st -> Str.beginsWith kv.1 uid = true ->
      record_event uid kv = Some ev -> ev ∈ events session.
Proof.
  intros Hs Hf. split; [|split].
  - intros k v Hin Hp.
    destruct (flushSession_store env _ _ _ _ _ Hs Hf Hin) as [[_ Hp']|Hk];
      simpl in *; congruence.
  - intros other k v Ho Hk Hin.
    assert (Hku : Str.beginsWith k uid = true).
    { apply beginsWith_inv in Ho as [s ->]. apply beginsWith_inv in Hk as [s' ->].
      rewrite !append_assoc. apply beginsWith_append. }
    destruct (flushSession_store env _ _ _ _ _ Hs Hf Hin) as [[_ Hp']|Hk'];
      simpl in *; [congruence|].
    assert (Hn : Str.beginsWith (next_envelope_key env st) (other +:+ "~") = false)
      by apply sessionq_key_not_user.
    congruence.
  - unfold flushSession in Hf.
    destruct (flushSession_scan _ _ _ _) as [session st1|] eqn:Hscan; [|discriminate].
    exists session, st1. split; [reflexivity|].
    intros kv ev Hin Hp Hev.
    pose proof (scan_Ok_well_headed _ _ _ _ _ _ Hscan) as Hw.
    destruct (scan_returns uid _ (mkSession uid EmptyString []) st Hw)
      as (session' & st1' & Hscan' & Hevents & _).
    rewrite Hscan in Hscan'. injection Hscan' as <- <-.
    rewrite Hevents. simpl. apply list_elem_of_omap. exists kv. split; [|exact Hev].
    now apply scan_range_reaches.
Qed.

Lemma flushSession_consumes_bare_prefix_witness :
  let st := Demo.prefix_sharing in
  let st' := state_of (flushSession Demo.env "u1" 2800000001 st) in
  MDB.sorted (txn st) /\
  flushSession Demo.env "u1" 2800000001 st = Ok tt st' /\
  (forall k v, (k, v) ∈ txn st' -> Str.beginsWith k "u1" = true ->
               k = next_envelope_key Demo.env st) /\
  (forall other k v,
     Str.beginsWith other "u1" = true ->
     Str.beginsWith k (other +:+ "~") = true -> (k, v) ∉ txn st') /\
  exists session st1,
    flushSession_scan "u1" (MDB.getFirstOrGreater "u1" (txn st))
                      (mkSession "u1" EmptyString []) st = Ok session st1 /\
    forall kv ev,
      kv ∈ txn st -> Str.beginsWith kv.1 "u1" = true ->
      record_event "u1" kv = Some ev -> ev ∈ events session.
Proof.
  intros st st'.
  assert (Hs : MDB.sorted (txn st)) 
    by (apply SortedFacts.sortedb_sorted; vm_compute; reflexivity).
  assert (H : flushSession Demo.env "u1" 2800000001 st = Ok tt st')
    by (vm_compute; reflexivity).
  split; [exact Hs|]. split; [exact H|].
  exact (flushSession_consumes_bare_prefix Demo.env "u1" 2800000001 _ _ Hs H).
Defined.

(** Users [u1] and [u10] have one event each. Flushing [u1] leaves nothing
    of [u10] in the store, and the one envelope written counts two
    events. *)
Lemma prefix_sharing_flush :
  let st := Demo.prefix_sharing in
  let st' := state_of (flushSession Demo.env "u1" 2800000001 st) in
  MDB.keys (txn st)
    = ["u10~cust"; "u10~v~0000000000000001"; "u1~cust"; "u1~q~0000000000000000"] /\
  txn st'
    = [("__sessionq-00000000000000020000000000000003", "CUST1/u1/0002")].
Proof. vm_compute. split; reflexivity. Qed.

(* ===================================================================== *)
(** * Further properties *)
(* ===================================================================== *)

(** ** Byte strings, again *)

Module MoreStrFacts.

Lemma find_append_sep (c : ascii) (a rest : string) :
  Str.find a c = None ->
  Str.find (a +:+ String c rest) c = Some (Str.length a).
Proof.
  induction a as [|d a' IH]; simpl; [now rewrite Ascii.eqb_refl|].
  destruct (Ascii.eqb d c); [discriminate|].
  destruct (Str.find a' c); [discriminate|].
  intros _. now rewrite IH.
Qed.

Lemma drop_append_plus s c t k :
  Str.drop (Str.length s + 1 + k) (s +:+ String c t) = Str.drop k t.
Proof. induction s as [|d s' IH]; simpl; [now destruct k, t | exact IH]. Qed.

Lemma find_lt s c : forall i, Str.find s c = Some i -> (i < Str.length s)%nat.
Proof.
  induction s as [|d s' IH]; intros i; simpl; [discriminate|].
  destruct (Ascii.eqb d c); [intros [= <-]; lia|].
  destruct (Str.find s' c) as [j|]; [|discriminate].
  intros [= <-]. specialize (IH j eq_refl). lia.
Qed.

Lemma length_take n : forall s,
  (n <= Str.length s)%nat -> Str.length (Str.take n s) = n.
Proof.
  induction n as [|n IH]; intros [|c s]; simpl; try lia.
  intros H. rewrite IH; lia.
Qed.

Lemma drop_length n : forall s,
  (n <= Str.length s)%nat ->
  exists t, Str.drop n s = Some t /\ Str.length t = (Str.length s - n)%nat.
Proof.
  induction n as [|n IH]; intros s H; simpl.
  - exists s. split; [reflexivity | lia].
  - destruct s as [|c s]; simpl in *; [lia|]. apply IH. lia.
Qed.

Lemma length_zero s : Str.length s = 0%nat -> s = EmptyString.
Proof. now destruct s. Qed.

End MoreStrFacts.

Import MoreStrFacts.

(** ** The raw line *)

(** X1. A raw line [customer|timestr|body] whose first two fields hold no
    [|] is split at its first two separators: the insert goes on with the
    customer key, the seconds of [timestr] as microseconds and the body,
    which may hold further [|]; when [timestr] is no number the insert
    raises what [std::stoul] raises and changes nothing. *)
Theorem insertLogline_raw_wrapper
    (env : Env) (customer timestr body : string) (st : State) :
  Str.find customer pipe = None ->
  Str.find timestr pipe = None ->
  insertLogline_raw env (customer +:+ "|" +:+ timestr +:+ "|" +:+ body) st
  = match stoul env timestr with
    | inl e => Raise e st
    | inr secs =>
        insertLogline env customer (wrap64 (secs * kMicrosPerSecond)) body st
    end.
Proof.
  intros Hc Ht. unfold insertLogline_raw.
  change (customer +:+ "|" +:+ timestr +:+ "|" +:+ body)
    with (customer +:+ String pipe (timestr +:+ String pipe body)).
  rewrite (find_append_sep pipe) by assumption.
  unfold find_from. rewrite drop_S_append.
  rewrite (find_append_sep pipe) by assumption.
  unfold Str.substr. cbn [Str.drop].
  rewrite take_append.
  rewrite <- (Nat.add_assoc (Str.length customer + 1)).
  rewrite drop_append_plus, drop_S_append.
  rewrite drop_S_append.
  replace (Str.length customer + 1 + Str.length timestr - Str.length customer - 1)%nat
    with (Str.length timestr) by lia.
  now rewrite take_append.
Qed.

Lemma insertLogline_raw_wrapper_witness :
  insertLogline_raw Demo.env ("CUST1" +:+ "|" +:+ "1000" +:+ "|" +:+ "c=u1~e1&e=q&x=a|b")
                    Demo.init
  = match stoul Demo.env "1000" with
    | inl e => Raise e Demo.init
    | inr secs =>
        insertLogline Demo.env "CUST1" (wrap64 (secs * kMicrosPerSecond))
                      "c=u1~e1&e=q&x=a|b" Demo.init
    end.
Proof.
  apply (insertLogline_raw_wrapper Demo.env "CUST1" "1000" "c=u1~e1&e=q&x=a|b").
  - reflexivity.
  - reflexivity.
Defined.

(** ** The main ingress *)

Section Ingress.
Variable env : Env.

(** A line that passes every test reaches [appendToSession] with the
    parameters other than [c], [e] and [v]. *)
Lemma insertLogline_try_accepted customer_key time params u eid evtype st :
  accepted_line env params u eid evtype ->
  insertLogline_try env customer_key time params st
  = appendToSession env customer_key time u eid evtype
                    (filter is_stored_param params) st.
Proof.
  intros (Hc & Hfind & Hu & He & Hshard & Hev & Hlen & Hallowed).
  unfold insertLogline_try. rewrite Hc.
  change (u +:+ "~" +:+ eid) with (u +:+ String tilde eid).
  rewrite find_append_tilde by assumption.
  unfold Str.substr. cbn [Str.drop].
  rewrite take_append, drop_S_append, length_append. cbn [Str.length].
  replace (Str.length u + S (Str.length eid) - Str.length u - 1)%nat
    with (Str.length eid) by lia.
  rewrite take_length, Hshard, Hev, Hlen, Hallowed.
  destruct u; [simpl in Hu; lia|]. destruct eid; [simpl in He; lia|].
  reflexivity.
Qed.

(** The only exception the encoding of an event raises is the index
    error of an unregistered parameter name. *)
Lemma append_params_error logline : forall buf e,
  append_params buf logline = inl e -> e = kIndexError.
Proof.
  induction logline as [|[name value] logline IH]; intros buf e;
    cbn [append_params]; [discriminate|].
  unfold getPixelParamID.
  destruct (pixel_param_ids_ pixel_params !! name); [apply IH | now intros [= <-]].
Qed.

Lemma encode_error time_s evid logline e :
  EventRecord.encode time_s evid logline = inl e -> e = kIndexError.
Proof. unfold encode. apply append_params_error. Qed.

(** What [appendToSession] does to the state, by its outcome. *)
Lemma appendToSession_cases customer_key time uid evid evtype logline st :
  let flush_at :=
    wrap64 (time + kSessionIdleTimeoutSeconds env * kMicrosPerSecond) in
  let st1 := set_flush_times (update_flush_time uid flush_at) st in
  match appendToSession env customer_key time uid evid evtype logline st with
  | Raise e st' =>
      e = kIndexError /\ st' = st1 /\
      exists e', EventRecord.encode (time / kMicrosPerSecond) evid logline = inl e'
  | Ok _ st' =>
      exists buf,
        EventRecord.encode (time / kMicrosPerSecond) evid logline = inr buf /\
        st' = set_txn (MDB.put (uid +:+ "~cust") customer_key)
                (set_txn (MDB.put (uid +:+ "~" +:+ evtype +:+ "~" +:+ (hex64 env st1).1) buf)
                   (hex64 env st1).2)
  end.
Proof.
  intros flush_at st1. unfold appendToSession. fold flush_at. fold st1.
  destruct (EventRecord.encode _ _ _) as [e|buf] eqn:E.
  - split; [now apply encode_error in E|]. split; [reflexivity|]. now exists e.
  - exists buf. split; reflexivity.
Qed.

Lemma insertLogline_try_frame customer_key time params st :
  let st' := state_of (insertLogline_try env customer_key time params st) in
  stat_loglines_total_ st' = stat_loglines_total_ st /\
  stat_loglines_invalid_ st' = stat_loglines_invalid_ st /\
  stat_joined_sessions_ st' = stat_joined_sessions_ st /\
  log st' = log st.
Proof.
  unfold insertLogline_try.
  repeat match goal with
         | |- context [match ?x with _ => _ end] => destruct x; try (simpl; tauto)
         end.
  unfold appendToSession.
  destruct (EventRecord.encode _ _ _); simpl; tauto.
Qed.

End Ingress.

(** X2. Every call of [insertLogline] whose query string parses counts the
    line once in [loglines_total]; it counts it in [loglines_invalid]
    exactly when it raises; [joined_sessions] and the log are left alone. *)
Theorem insertLogline_counts
    (env : Env) (customer_key : string) (time : Z) (log_line : string)
    (st : State) (params : ParamList) :
  parseQueryString env log_line = inr params ->
  let r := insertLogline env customer_key time log_line st in
  stat_loglines_total_ (state_of r) = (stat_loglines_total_ st + 1)%N /\
  stat_loglines_invalid_ (state_of r)
  = (stat_loglines_invalid_ st + match r with Ok _ _ => 0 | Raise _ _ => 1 end)%N /\
  stat_joined_sessions_ (state_of r) = stat_joined_sessions_ st /\
  log (state_of r) = log st.
Proof.
  intros Hparse r. subst r. unfold insertLogline. rewrite Hparse.
  pose proof (insertLogline_try_frame env customer_key time params
                (incr_loglines_total st)) as F.
  destruct (insertLogline_try _ _ _ _ _) as [[] st'|e st']; simpl in *;
    destruct F as (-> & -> & -> & ->); repeat split; lia.
Qed.

Lemma insertLogline_counts_witness :
  let r := insertLogline Demo.env "CUST1" 1000000000 "e=q" Demo.init in
  stat_loglines_total_ (state_of r) = (stat_loglines_total_ Demo.init + 1)%N /\
  stat_loglines_invalid_ (state_of r)
  = (stat_loglines_invalid_ Demo.init + match r with Ok _ _ => 0 | Raise _ _ => 1 end)%N /\
  stat_joined_sessions_ (state_of r) = stat_joined_sessions_ Demo.init /\
  log (state_of r) = log Demo.init.
Proof.
  apply (insertLogline_counts Demo.env "CUST1" 1000000000 "e=q" Demo.init [("e", "q")]).
  vm_compute. reflexivity.
Defined.

(** X3. When the [c] parameter is missing, has no [~], or has an empty user
    id or an empty event id, [insertLogline] raises a parse error; the
    line is counted as a line and as invalid, and nothing else changes:
    no record is stored and no deadline is set. *)
Theorem insertLogline_bad_c
    (env : Env) (customer_key : string) (time : Z) (log_line : string)
    (st : State) (params : ParamList) :
  parseQueryString env log_line = inr params ->
  bad_c params ->
  insertLogline env customer_key time log_line st
  = Raise kParseError (incr_loglines_invalid (incr_loglines_total st)).
Proof.
  intros Hparse Hbad. unfold insertLogline, insertLogline_try. rewrite Hparse.
  unfold bad_c in Hbad.
  destruct (getParam params "c") as [c|]; [|reflexivity].
  destruct (Str.find c tilde) as [i|] eqn:Hi; [|reflexivity].
  pose proof (find_lt _ _ _ Hi) as Hlt.
  unfold Str.substr. cbn [Str.drop].
  destruct (drop_length (i + 1) c ltac:(lia)) as (t & -> & Ht).
  assert (Hlu : Str.length (Str.take i c) = i) by (apply length_take; lia).
  assert (Hle : Str.length (Str.take (Str.length c - i - 1) t)
                = (Str.length c - i - 1)%nat) by (apply length_take; lia).
  rewrite Hlu, Hle.
  destruct Hbad as [->|Hend].
  - reflexivity.
  - replace (Str.length c - i - 1)%nat with 0%nat by lia.
    now rewrite orb_true_r.
Qed.

Lemma insertLogline_bad_c_witness :
  insertLogline Demo.env "CUST1" 1000000000 "c=u1~&e=q" Demo.init
  = Raise kParseError (incr_loglines_invalid (incr_loglines_total Demo.init)).
Proof.
  apply (insertLogline_bad_c Demo.env "CUST1" 1000000000 "c=u1~&e=q" Demo.init
           [("c", "u1~"); ("e", "q")]).
  - vm_compute. reflexivity.
  - right. reflexivity.
Defined.

(** X4. For a user of the shard, a line whose [e] parameter is missing, is
    not one character long, or is none of [q], [v], [c], [u] makes
    [insertLogline] raise a parse error; the line is counted as a line and
    as invalid, no record is stored and no deadline is set. *)
Theorem insertLogline_bad_e
    (env : Env) (customer_key : string) (time : Z) (log_line : string)
    (st : State) (params : ParamList) (u eid : string) :
  parseQueryString env log_line = inr params ->
  getParam params "c" = Some (u +:+ "~" +:+ eid) ->
  Str.find u tilde = None ->
  (0 < Str.length u)%nat -> (0 < Str.length eid)%nat ->
  testUID env u = true ->
  bad_e params ->
  insertLogline env customer_key time log_line st
  = Raise kParseError (incr_loglines_invalid (incr_loglines_total st)).
Proof.
  intros Hparse Hc Hfind Hu He Hshard Hbad.
  unfold insertLogline, insertLogline_try. rewrite Hparse, Hc.
  change (u +:+ "~" +:+ eid) with (u +:+ String tilde eid).
  rewrite find_append_tilde by assumption.
  unfold Str.substr. cbn [Str.drop].
  rewrite take_append, drop_S_append, length_append. cbn [Str.length].
  replace (Str.length u + S (Str.length eid) - Str.length u - 1)%nat
    with (Str.length eid) by lia.
  rewrite take_length, Hshard.
  destruct u; [simpl in Hu; lia|]. destruct eid; [simpl in He; lia|].
  cbn [Str.length Nat.eqb orb negb].
  unfold bad_e in Hbad.
  destruct (getParam params "e") as [evtype|]; [|reflexivity].
  destruct Hbad as [Hlen|Hallowed].
  - apply Nat.eqb_neq in Hlen. now rewrite Hlen.
  - rewrite Hallowed. now destruct (Nat.eqb _ 1).
Qed.

Lemma insertLogline_bad_e_witness :
  insertLogline Demo.env "CUST1" 1000000000 "c=u1~e1&e=x" Demo.init
  = Raise kParseError (incr_loglines_invalid (incr_loglines_total Demo.init)).
Proof.
  apply (insertLogline_bad_e Demo.env "CUST1" 1000000000 "c=u1~e1&e=x" Demo.init
           [("c", "u1~e1"); ("e", "x")] "u1" "e1").
  - vm_compute. reflexivity.
  - reflexivity.
  - reflexivity.
  - simpl. lia.
  - simpl. lia.
  - reflexivity.
  - right. reflexivity.
Defined.

(** ** What an insert stores *)

Module StoreGetFacts.
Import MDB.

Lemma store_get_put_eq key value s :
  store_get key (put key value s) = Some value.
Proof.
  induction s as [|[k v] s IH]; simpl; [now rewrite String.eqb_refl|].
  destruct (Str.ltb key k); simpl; [now rewrite String.eqb_refl|].
  destruct (String.eqb_spec key k) as [->|Hne]; simpl.
  - now rewrite String.eqb_refl.
  - destruct (String.eqb_spec k key) as [E|_]; [congruence | exact IH].
Qed.

Lemma store_get_put_ne key key' value s :
  key <> key' -> store_get key' (put key value s) = store_get key' s.
Proof.
  intros Hne. induction s as [|[k v] s IH]; simpl.
  - destruct (String.eqb_spec key key'); [congruence | reflexivity].
  - destruct (Str.ltb key k); simpl.
    + destruct (String.eqb_spec key key'); [congruence | reflexivity].
    + destruct (String.eqb_spec key k) as [->|Hk]; simpl.
      * destruct (String.eqb_spec k key'); [congruence | reflexivity].
      * destruct (String.eqb k key'); [reflexivity | exact IH].
Qed.

Lemma store_get_elem_of key value s :
  store_get key s = Some value -> (key, value) ∈ s.
Proof.
  induction s as [|[k v] s IH]; simpl; [discriminate|].
  destruct (String.eqb_spec k key) as [->|_].
  - intros [= ->]. now left.
  - intros H. right. now apply IH.
Qed.

End StoreGetFacts.

Import StoreGetFacts.

(** The record an event is written to decodes to the event. *)
Lemma decode_encode time_s eid params :
  0 <= time_s < 2 ^ 64 ->
  fits eid ->
  Forall (fun p => registered p.1 /\ fits p.2) params ->
  exists buf,
    EventRecord.encode time_s eid params = inr buf /\
    EventRecord.decode buf = inr (time_s, eid, params).
Proof.
  intros Ht He Hall. unfold encode.
  rewrite append_params_buf.
  destruct (append_params EmptyString params) as [e|body] eqn:E.
  - exfalso. clear -Hall E. revert E.
    generalize EmptyString.
    induction params as [|[name value] params IH]; intros buf;
      cbn [append_params]; [discriminate|].
    apply Forall_cons in Hall as [[[id Hid] _] Hall]. cbn [fst] in Hid.
    rewrite Hid. now apply IH.
  - eexists. split; [reflexivity|].
    destruct (read_params_append_params params body (length params) Hall E)
      as [_ Hl]; [reflexivity|].
    destruct (read_params_append_params params body (Str.length body) Hall E Hl)
      as [Hr _].
    unfold decode, read_header, append.
    rewrite (appendVarUInt_eq _ (Z.of_nat _)), !append_assoc.
    rewrite readVarUInt_append by lia.
    rewrite readVarUInt_append by (unfold fits in He; lia).
    unfold read. rewrite Nat2Z.id, drop_append, take_append.
    unfold remaining. now rewrite Hr.
Qed.

(** A parameter list with an unregistered name is not encoded. *)
Lemma append_params_unregistered logline : forall buf,
  Exists (fun p => ~ registered p.1) logline ->
  exists e, append_params buf logline = inl e.
Proof.
  induction logline as [|[name value] logline IH]; intros buf Hex;
    [now apply Exists_nil in Hex|].
  cbn [append_params].
  destruct (getPixelParamID name) as [e|id] eqn:E; [now exists e|].
  apply Exists_cons in Hex as [Hun|Hex]; [|now apply IH].
  exfalso. apply Hun. now exists id.
Qed.

(** The key of an event is not the key of a customer-key record. *)
Lemma event_key_not_cust u evtype hex :
  Str.length evtype = 1%nat ->
  u +:+ "~" +:+ evtype +:+ "~" +:+ hex <> u +:+ "~cust".
Proof.
  intros Hlen H. apply String.app_inj in H.
  destruct evtype as [|c [|d evtype]]; simpl in Hlen; try lia.
  simpl in H. discriminate.
Qed.

Lemma update_flush_time_keeps key ftime (m : gmap string Z) u d :
  m !! u = Some d -> update_flush_time key ftime m !! u = Some d.
Proof.
  intros Hu. unfold update_flush_time, emplace.
  destruct (m !! key) as [old|] eqn:E.
  - now destruct (old <? ftime).
  - rewrite lookup_insert_ne; [exact Hu | congruence].
Qed.

Lemma update_flush_time_size key ftime (m : gmap string Z) :
  size (update_flush_time key ftime m)
  = (size m + match m !! key with Some _ => 0 | None => 1 end)%nat.
Proof.
  unfold update_flush_time, emplace.
  destruct (m !! key) as [old|] eqn:E.
  - destruct (old <? ftime); lia.
  - rewrite map_size_insert_None by assumption. lia.
Qed.

(** The deadline map after an insert is the map before, or the map before
    with the deadline of one user updated. *)
Lemma insertLogline_flush_times env customer_key time log_line st :
  let m' := sessions_flush_times_
              (state_of (insertLogline env customer_key time log_line st)) in
  m' = sessions_flush_times_ st \/
  exists key ftime, m' = update_flush_time key ftime (sessions_flush_times_ st).
Proof.
  unfold insertLogline.
  destruct (parseQueryString env log_line) as [e|params]; [now left|].
  assert (H : let m' := sessions_flush_times_
               (state_of (insertLogline_try env customer_key time params
                            (incr_loglines_total st))) in
              m' = sessions_flush_times_ st \/
              exists key ftime, m' = update_flush_time key ftime (sessions_flush_times_ st)).
  { unfold insertLogline_try.
    repeat match goal with
           | |- context [match ?x with _ => _ end] => destruct x; try (now left)
           end.
    unfold appendToSession.
    destruct (EventRecord.encode _ _ _); simpl; right; eauto. }
  destruct (insertLogline_try _ _ _ _ _); exact H.
Qed.

(** X5. While the store works, an insert raises only before its first call
    on the store: because the query string does not parse, because the [c]
    or the [e] parameter is rejected, or because a parameter name is not
    registered. An insert that raises so has stored nothing and drawn no
    random number; unless it raises the index error of an unregistered
    parameter, it has left the deadline map as it was, too. A failure of
    the store itself, which would come after the deadline is set and the
    random number is drawn, is not covered. *)
Theorem insertLogline_raise_stores_nothing
    (env : Env) (customer_key : string) (time : Z) (log_line : string)
    (st st' : State) (e : Exn) :
  insertLogline env customer_key time log_line st = Raise e st' ->
  txn st' = txn st /\ rnd_ st' = rnd_ st /\
  (e <> kIndexError -> sessions_flush_times_ st' = sessions_flush_times_ st).
Proof.
  unfold insertLogline.
  destruct (parseQueryString env log_line) as [e0|params];
    [intros [= <- <-]; auto|].
  assert (H : forall e1 st1,
             insertLogline_try env customer_key time params (incr_loglines_total st)
             = Raise e1 st1 ->
             txn st1 = txn st /\ rnd_ st1 = rnd_ st /\
             (e1 <> kIndexError -> sessions_flush_times_ st1 = sessions_flush_times_ st)).
  { intros e1 st1. unfold insertLogline_try.
    repeat match goal with
           | |- context [match ?x with _ => _ end] =>
               destruct x; try (intros [= <- <-]; auto); try discriminate
           end.
    intros Happ.
    match type of Happ with
    | appendToSession ?env ?ck ?t ?u ?ev ?ty ?l ?s = _ =>
        pose proof (appendToSession_cases env ck t u ev ty l s) as C
    end.
    rewrite Happ in C. simpl in C. destruct C as (-> & -> & _).
    simpl. repeat split. congruence. }
  destruct (insertLogline_try _ _ _ _ _) as [|e1 st1] eqn:E; [discriminate|].
  intros [= <- <-]. destruct (H _ _ eq_refl) as (H1 & H2 & H3).
  simpl. auto.
Qed.

Lemma insertLogline_raise_stores_nothing_witness :
  let st' := incr_loglines_invalid (incr_loglines_total Demo.one_event) in
  txn st' = txn Demo.one_event /\ rnd_ st' = rnd_ Demo.one_event /\
  (kParseError <> kIndexError ->
   sessions_flush_times_ st' = sessions_flush_times_ Demo.one_event).
Proof.
  intros st'.
  apply (insertLogline_raise_stores_nothing Demo.env "CUST1" 2500000000
           "c=u1~e2&e=x" Demo.one_event st' kParseError).
  vm_compute. reflexivity.
Defined.

(** X6. A line that passes every test and has a parameter whose name is not
    registered raises an index error and is counted as invalid; no record
    is stored, yet the user has a deadline afterwards: the deadline is set
    before the event is encoded. *)
Theorem insertLogline_unregistered_param
    (env : Env) (customer_key : string) (time : Z) (log_line : string)
    (st : State) (params : ParamList) (u eid evtype : string) :
  parseQueryString env log_line = inr params ->
  accepted_line env params u eid evtype ->
  Exists (fun p => ~ registered p.1) (filter is_stored_param params) ->
  exists st',
    insertLogline env customer_key time log_line st = Raise kIndexError st' /\
    txn st' = txn st /\
    stat_loglines_invalid_ st' = (stat_loglines_invalid_ st + 1)%N /\
    is_Some (sessions_flush_times_ st' !! u).
Proof.
  intros Hparse Hacc Hex.
  unfold insertLogline. rewrite Hparse.
  rewrite (insertLogline_try_accepted env _ _ _ _ _ _ _ Hacc).
  match goal with
  | |- context [appendToSession ?env ?ck ?t ?u ?ev ?ty ?l ?s] =>
      pose proof (appendToSession_cases env ck t u ev ty l s) as C
  end.
  destruct (appendToSession _ _ _ _ _ _ _ _) as [[] st1|e st1]; simpl in C.
  - destruct C as (buf & Henc & _). unfold encode in Henc.
    destruct (append_params_unregistered _
                (append (appendVarUInt (appendVarUInt EmptyString (time / kMicrosPerSecond))
                           (Z.of_nat (Str.length eid))) eid) Hex) as [e He].
    congruence.
  - destruct C as (-> & -> & _). eexists. split; [reflexivity|].
    simpl. repeat split. rewrite update_flush_time_lookup. eauto.
Qed.

Lemma insertLogline_unregistered_param_witness :
  exists st',
    insertLogline Demo.env "CUST1" 1000000000 "c=u1~e1&e=q&zz=1" Demo.init
      = Raise kIndexError st' /\
    txn st' = txn Demo.init /\
    stat_loglines_invalid_ st' = (stat_loglines_invalid_ Demo.init + 1)%N /\
    is_Some (sessions_flush_times_ st' !! "u1").
Proof.
  apply (insertLogline_unregistered_param Demo.env "CUST1" 1000000000
           "c=u1~e1&e=q&zz=1" Demo.init
           [("c", "u1~e1"); ("e", "q"); ("zz", "1")] "u1" "e1" "q").
  - vm_compute. reflexivity.
  - repeat split; try reflexivity; simpl; lia.
  - vm_compute. apply Exists_cons_hd. intros [id H]. vm_compute in H. discriminate.
Defined.

(** X7. A line that passes every test, with registered parameter names, is
    stored: afterwards the store holds, under the event key
    [u~evtype~hex], a record that decodes to the seconds of the event time,
    the event id and the parameters of the line other than [c], [e] and
    [v], in their order; it holds the customer key under [u~cust]; every
    other key holds what it held before; one random number was drawn. *)
Theorem insertLogline_stores_event
    (env : Env) (customer_key : string) (time : Z) (log_line : string)
    (st : State) (params : ParamList) (u eid evtype : string) :
  parseQueryString env log_line = inr params ->
  accepted_line env params u eid evtype ->
  0 <= time < 2 ^ 64 ->
  fits eid ->
  Forall (fun p => registered p.1 /\ fits p.2) (filter is_stored_param params) ->
  let evkey := u +:+ "~" +:+ evtype +:+ "~" +:+ (hex64 env st).1 in
  exists st' buf,
    insertLogline env customer_key time log_line st = Ok tt st' /\
    store_get evkey (txn st') = Some buf /\
    EventRecord.decode buf
    = inr (time / kMicrosPerSecond, eid, filter is_stored_param params) /\
    store_get (u +:+ "~cust") (txn st') = Some customer_key /\
    (forall k, k <> evkey -> k <> u +:+ "~cust" ->
               store_get k (txn st') = store_get k (txn st)) /\
    rnd_ st' = S (rnd_ st).
Proof.
  intros Hparse Hacc Ht He Hall evkey.
  assert (Hts : 0 <= time / kMicrosPerSecond < 2 ^ 64).
  { unfold kMicrosPerSecond. split.
    - apply Z.div_pos; lia.
    - apply Z.div_lt_upper_bound; lia. }
  destruct (decode_encode _ eid _ Hts He Hall) as (buf & Henc & Hdec).
  unfold insertLogline. rewrite Hparse.
  rewrite (insertLogline_try_accepted env _ _ _ _ _ _ _ Hacc).
  unfold appendToSession. rewrite Henc. cbn [hex64 fst snd].
  eexists. exists buf. split; [reflexivity|].
  destruct Hacc as (_ & _ & _ & _ & _ & _ & Hlen & _).
  pose proof (event_key_not_cust u evtype (hex64 env st).1 Hlen) as Hne.
  simpl txn. simpl rnd_.
  split; [|split; [exact Hdec|split; [|split; [|reflexivity]]]].
  - rewrite store_get_put_ne by (intros E; apply Hne; symmetry; exact E).
    apply store_get_put_eq.
  - apply store_get_put_eq.
  - intros k Hk1 Hk2.
    rewrite store_get_put_ne by (intros E; now apply Hk2).
    apply store_get_put_ne. intros E. now apply Hk1.
Qed.

Lemma insertLogline_stores_event_witness :
  exists st' buf,
    insertLogline Demo.env "CUST1" 1000000000 "c=u1~e1&e=q&v=3&qstr~en=hello" Demo.init
      = Ok tt st' /\
    store_get "u1~q~0000000000000000" (txn st') = Some buf /\
    EventRecord.decode buf = inr (1000, "e1", [("qstr~en", "hello")]) /\
    store_get "u1~cust" (txn st') = Some "CUST1" /\
    (forall k, k <> "u1~q~0000000000000000" -> k <> "u1~cust" ->
               store_get k (txn st') = store_get k (txn Demo.init)) /\
    rnd_ st' = S (rnd_ Demo.init).
Proof.
  apply (insertLogline_stores_event Demo.env "CUST1" 1000000000
           "c=u1~e1&e=q&v=3&qstr~en=hello" Demo.init
           [("c", "u1~e1"); ("e", "q"); ("v", "3"); ("qstr~en", "hello")]
           "u1" "e1" "q").
  - vm_compute. reflexivity.
  - repeat split; try reflexivity; simpl; lia.
  - lia.
  - unfold fits. simpl. lia.
  - change (Forall (fun p => registered p.1 /\ fits p.2) [("qstr~en", "hello")]).
    apply Forall_cons. split; [|constructor].
    split; [exists 102; vm_compute; reflexivity | unfold fits; simpl; lia].
Defined.

(** X8. No insert, whether it returns or raises, removes a deadline or
    makes one earlier: a user who had a deadline has one afterwards, and it
    is not before the old one. *)
Theorem insertLogline_deadlines_monotone
    (env : Env) (customer_key : string) (time : Z) (log_line : string)
    (st : State) (u : string) (d : Z) :
  sessions_flush_times_ st !! u = Some d ->
  exists d',
    sessions_flush_times_ (state_of (insertLogline env customer_key time log_line st))
      !! u = Some d' /\
    d <= d'.
Proof.
  intros Hu. exists d. split; [|lia].
  destruct (insertLogline_flush_times env customer_key time log_line st)
    as [->|(key & ftime & ->)]; [exact Hu|].
  now apply update_flush_time_keeps.
Qed.

Lemma insertLogline_deadlines_monotone_witness :
  exists d',
    sessions_flush_times_
      (state_of (insertLogline Demo.env "CUST1" 900000000 "c=u1~e0&e=q" Demo.one_event))
      !! "u1" = Some d' /\
    2800000000 <= d'.
Proof.
  apply (insertLogline_deadlines_monotone Demo.env "CUST1" 900000000
           "c=u1~e0&e=q" Demo.one_event "u1" 2800000000).
  vm_compute. reflexivity.
Defined.

(** X9. A line that passes every test adds one session when its user had no
    deadline and none when the user had one, whether the event is then
    stored or its encoding fails. *)
Theorem insertLogline_numSessions
    (env : Env) (customer_key : string) (time : Z) (log_line : string)
    (st : State) (params : ParamList) (u eid evtype : string) :
  parseQueryString env log_line = inr params ->
  accepted_line env params u eid evtype ->
  numSessions (state_of (insertLogline env customer_key time log_line st))
  = (numSessions st
     + match sessions_flush_times_ st !! u with Some _ => 0 | None => 1 end)%nat.
Proof.
  intros Hparse Hacc. unfold insertLogline. rewrite Hparse.
  rewrite (insertLogline_try_accepted env _ _ _ _ _ _ _ Hacc).
  unfold appendToSession, numSessions.
  destruct (EventRecord.encode _ _ _); simpl; apply update_flush_time_size.
Qed.

Lemma insertLogline_numSessions_witness :
  numSessions (state_of (insertLogline Demo.env "CUST2" 1500000000 "c=u2~e1&e=v"
                                       Demo.one_event))
  = (numSessions Demo.one_event
     + match sessions_flush_times_ Demo.one_event !! "u2" with
       | Some _ => 0 | None => 1 end)%nat.
Proof.
  apply (insertLogline_numSessions Demo.env "CUST2" 1500000000 "c=u2~e1&e=v"
           Demo.one_event [("c", "u2~e1"); ("e", "v")] "u2" "e1" "v").
  - vm_compute. reflexivity.
  - repeat split; try reflexivity; simpl; lia.
Defined.

(** ** More on [flush] *)

Section MoreFlush.
Variable env : Env.

Lemma flush_loop_nothing_due t iter st :
  Forall (fun p => t <= p.2) iter ->
  flush_loop env iter t st = Ok tt st.
Proof.
  induction iter as [|[uid ftime] iter IH]; intros Hall; simpl; [reflexivity|].
  apply Forall_cons in Hall as [Hge Hall]. simpl in Hge.
  destruct (Z.ltb_spec ftime t); [lia|]. now apply IH.
Qed.

Lemma map_to_list_not_due t (m : gmap string Z) :
  (forall uid d, m !! uid = Some d -> t <= d) ->
  Forall (fun p => t <= p.2) (map_to_list m).
Proof.
  intros H. apply Forall_forall. intros [uid d] Hin%elem_of_map_to_list.
  simpl. eauto.
Qed.

Lemma flushSession_raise_flush_times uid t st e st' :
  flushSession env uid t st = Raise e st' ->
  sessions_flush_times_ st' = sessions_flush_times_ st.
Proof.
  unfold flushSession.
  pose proof (flushSession_scan_frame uid (MDB.getFirstOrGreater uid (txn st))
                (mkSession uid EmptyString []) st) as F.
  destruct (flushSession_scan _ _ _ _) as [session st1|e1 st1].
  - destruct (Nat.eqb _ 0); discriminate.
  - intros [= _ <-]. now destruct F as (F & _).
Qed.

(** A raising [flush] loop stops at a due user, who keeps the deadline. *)
Lemma flush_loop_raise t iter : forall st e st',
  NoDup iter.*1 ->
  (forall uid d, (uid, d) ∈ iter -> sessions_flush_times_ st !! uid = Some d) ->
  flush_loop env iter t st = Raise e st' ->
  exists uid d,
    (uid, d) ∈ iter /\ d < t /\ sessions_flush_times_ st' !! uid = Some d.
Proof.
  induction iter as [|[uid ftime] iter IH]; intros st e st' Hnd Hin; simpl;
    [discriminate|].
  apply NoDup_cons in Hnd as [Hnotin Hnd]. simpl in Hnotin.
  destruct (Z.ltb_spec ftime t) as [Hlt|Hge].
  - destruct (flushSession env uid t st) as [[] st1|e1 st1] eqn:E.
    + intros Hloop. apply IH in Hloop as (u & d & Hu & Hd & Hl); [| exact Hnd |].
      * exists u, d. split; [now right | auto].
      * intros u d Hu. simpl.
        rewrite lookup_delete_ne.
        -- rewrite (flushSession_flush_times env _ _ _ _ E). apply Hin. now right.
        -- intros ->. apply Hnotin. apply list_elem_of_fmap. now exists (u, d).
    + intros [= <- <-]. exists uid, ftime. split; [now left|]. split; [exact Hlt|].
      rewrite (flushSession_raise_flush_times _ _ _ _ _ E). apply Hin. now left.
  - intros Hloop. apply IH in Hloop as (u & d & Hu & Hd & Hl); [| exact Hnd |].
    + exists u, d. split; [now right | auto].
    + intros u d Hu. apply Hin. now right.
Qed.

End MoreFlush.

(** X10. A flush at a stream time that no deadline is before changes
    nothing: it returns with the state it was called in, so it reads and
    writes no record, calls no target and counts nothing. *)
Theorem flush_nothing_due (env : Env) (t : Z) (st : State) :
  map_Forall (fun _ d => t <= d) (sessions_flush_times_ st) ->
  flush env t st = Ok tt st.
Proof.
  intros H. unfold flush. apply flush_loop_nothing_due.
  now apply map_to_list_not_due.
Qed.

Lemma flush_nothing_due_witness :
  flush Demo.env 1001000000 Demo.two_users = Ok tt Demo.two_users.
Proof.
  apply (flush_nothing_due Demo.env 1001000000 Demo.two_users).
  apply (bool_decide_unpack _). vm_compute. exact I.
Defined.

(** X11. A flush that returns leaves every user whose deadline is not before
    the stream time in the deadline map, with the deadline as it was. *)
Theorem flush_keeps_not_due
    (env : Env) (t : Z) (st st' : State) (uid : string) (d : Z) :
  flush env t st = Ok tt st' ->
  sessions_flush_times_ st !! uid = Some d ->
  t <= d ->
  sessions_flush_times_ st' !! uid = Some d.
Proof.
  unfold flush. intros [_ Hm]%flush_loop_calls Hd Hge.
  rewrite Hm, lookup_foldl_delete.
  destruct (decide (uid ∈ due t (map_to_list (sessions_flush_times_ st))))
    as [Hin|_]; [|exact Hd].
  apply elem_of_due in Hin as (d' & Hin & Hlt).
  apply elem_of_map_to_list in Hin. rewrite Hd in Hin. injection Hin as <-. lia.
Qed.

Lemma flush_keeps_not_due_witness :
  let st' := state_of (flush Demo.env 2800000001 Demo.two_users) in
  sessions_flush_times_ st' !! "u2" = Some 3300000000.
Proof.
  intros st'.
  apply (flush_keeps_not_due Demo.env 2800000001 Demo.two_users st' "u2" 3300000000).
  - vm_compute. reflexivity.
  - vm_compute. reflexivity.
  - lia.
Defined.

(** X12. A flush that has returned has nothing left to do at the same stream
    time: flushing again returns with the state unchanged. *)
Theorem flush_idempotent (env : Env) (t : Z) (st st' : State) :
  flush env t st = Ok tt st' ->
  flush env t st' = Ok tt st'.
Proof.
  unfold flush at 1. intros Hf.
  destruct (flush_loop_boundary env t (map_to_list (sessions_flush_times_ st)) st st')
    as (Hleft & _); [|exact Hf|].
  - intros uid d. apply elem_of_map_to_list.
  - unfold flush. apply flush_loop_nothing_due. now apply map_to_list_not_due.
Qed.

Lemma flush_idempotent_witness :
  let st' := state_of (flush Demo.env 2800000001 Demo.two_users) in
  flush Demo.env 2800000001 st' = Ok tt st'.
Proof.
  intros st'.
  apply (flush_idempotent Demo.env 2800000001 Demo.two_users st').
  vm_compute. reflexivity.
Defined.

(** X13. When a flush raises, it is the flush of a due user that raised, and
    this user is still in the deadline map with the deadline as it was, so
    that a later flush takes the user up again. *)
Theorem flush_raise_keeps_user (env : Env) (t : Z) (st st' : State) (e : Exn) :
  flush env t st = Raise e st' ->
  exists uid d,
    sessions_flush_times_ st !! uid = Some d /\ d < t /\
    sessions_flush_times_ st' !! uid = Some d.
Proof.
  unfold flush. intros Hf.
  apply flush_loop_raise in Hf as (uid & d & Hin & Hlt & Hl).
  - exists uid, d. split; [now apply elem_of_map_to_list | auto].
  - apply NoDup_fst_map_to_list.
  - intros uid d. apply elem_of_map_to_list.
Qed.

Lemma flush_raise_keeps_user_witness :
  let st := mkState {[ "u1" := 2800000000 ]} 0 0 0 0 [] Demo.truncated in
  exists uid d,
    sessions_flush_times_ st !! uid = Some d /\ d < 2800000001 /\
    sessions_flush_times_ (state_of (flush Demo.env 2800000001 st)) !! uid = Some d.
Proof.
  intros st.
  apply (flush_raise_keeps_user Demo.env 2800000001 st
           (state_of (flush Demo.env 2800000001 st)) kBufferOverflowError).
  vm_compute. reflexivity.
Defined.

(** ** More on [flushSession] *)

Module MoreStoreFacts.
Import MDB.

Lemma elem_of_put_other kv key value s :
  kv ∈ s -> kv.1 <> key -> kv ∈ put key value s.
Proof.
  intros Hin Hne. induction s as [|[k v] s IH]; simpl; [now apply elem_of_nil in Hin|].
  destruct (Str.ltb key k); [now right|].
  destruct (String.eqb_spec key k) as [->|Hk].
  - apply elem_of_cons in Hin as [->|Hin]; [simpl in Hne; congruence | now right].
  - apply elem_of_cons in Hin as [->|Hin]; [now left | right; now apply IH].
Qed.

End MoreStoreFacts.

Import MoreStoreFacts.

Section MoreFlushSession.
Variable env : Env.

(** However a scan ends, it adds no record to the store, and it leaves
    the records whose keys do not begin with the uid where they are. *)
Lemma scan_txn_any uid cursor : forall session st kv,
  let st' := state_of (flushSession_scan uid cursor session st) in
  (kv ∈ txn st' -> kv ∈ txn st) /\
  (kv ∈ txn st -> Str.beginsWith kv.1 uid = false -> kv ∈ txn st') /\
  rnd_ st' = rnd_ st.
Proof.
  induction cursor as [|[key_str value] cursor IH]; intros session st kv;
    [simpl; tauto|].
  cbn [flushSession_scan].
  destruct (Str.beginsWith key_str uid) eqn:Hp; cbn [negb]; [|simpl; tauto].
  assert (Hstep : forall session' st1,
             txn st1 = txn st -> rnd_ st1 = rnd_ st ->
             let st' := state_of (flushSession_scan uid cursor session'
                                    (set_txn (MDB.del key_str) st1)) in
             (kv ∈ txn st' -> kv ∈ txn st) /\
             (kv ∈ txn st -> Str.beginsWith kv.1 uid = false -> kv ∈ txn st') /\
             rnd_ st' = rnd_ st).
  { intros session' st1 Ht Hr.
    destruct (IH session' (set_txn (MDB.del key_str) st1) kv) as (H1 & H2 & H3).
    simpl in *. rewrite Ht in *. split; [|split].
    - intros H%H1. now apply elem_of_del in H as [H _].
    - intros Hin Hnp. apply H2; [|exact Hnp]. apply elem_of_del. split; [exact Hin|].
      intros E. rewrite E in Hnp. congruence.
    - now rewrite H3. }
  destruct (Str.endsWith key_str "~cust"); [now apply Hstep|].
  destruct (Str.drop _ key_str); [|simpl; tauto].
  destruct (EventRecord.read_header value) as [e|[[time_s evid] reader]];
    [simpl; tauto|].
  destruct (EventRecord.read_params _ reader); now apply Hstep.
Qed.

(** Without a customer-key record in its range, a scan leaves the
    customer key of the session as it was. *)
Lemma scan_no_cust uid cursor : forall session st session' st',
  flushSession_scan uid cursor session st = Ok session' st' ->
  forallb (fun kv => negb (Str.endsWith kv.1 "~cust")) (scan_range uid cursor) = true ->
  customer_key session' = customer_key session.
Proof.
  induction cursor as [|[key_str value] cursor IH]; intros session st session' st'.
  - now intros [= <- _].
  - cbn [flushSession_scan scan_range fst].
    destruct (Str.beginsWith key_str uid); cbn [negb]; [|now intros [= <- _]].
    cbn [forallb fst].
    destruct (Str.endsWith key_str "~cust"); [intros _; discriminate|].
    cbn [negb andb].
    destruct (Str.drop _ key_str); [|discriminate].
    destruct (EventRecord.read_header value) as [e|[[time_s evid] reader]];
      [discriminate|].
    destruct (EventRecord.read_params _ reader); intros H1 H2;
      apply (IH _ _ _ _ H1) in H2; exact H2.
Qed.

End MoreFlushSession.

(** X14. However [flushSession] ends, a record whose key does not begin with
    the uid is still in the store afterwards, unless its key is the key
    the new envelope is written under. *)
Theorem flushSession_keeps_other_records
    (env : Env) (uid : string) (t : Z) (st : State) (kv : string * string) :
  kv ∈ txn st ->
  Str.beginsWith kv.1 uid = false ->
  kv.1 <> next_envelope_key env st ->
  kv ∈ txn (state_of (flushSession env uid t st)).
Proof.
  intros Hin Hnp Hne. unfold flushSession.
  destruct (scan_txn_any uid (MDB.getFirstOrGreater uid (txn st))
              (mkSession uid EmptyString []) st kv) as (_ & Hkeep & Hrnd).
  specialize (Hkeep Hin Hnp).
  destruct (flushSession_scan _ _ _ _) as [session st1|e st1]; simpl in *;
    [|exact Hkeep].
  destruct (Nat.eqb _ 0); [exact Hkeep|].
  pose proof (onSession_cases env session st1) as O.
  destruct (onSession env session st1) as [[] st2|e st2]; simpl.
  - destruct O as ([->|[buf ->]] & _); [exact Hkeep|].
    apply elem_of_put_other; [exact Hkeep|].
    unfold next_envelope_key, hex128 in *. simpl in *. now rewrite Hrnd.
  - now subst st2.
Qed.

Lemma flushSession_keeps_other_records_witness :
  ("u2~cust", "CUST1")
    ∈ txn (state_of (flushSession Demo.env "u1" 2800000001 Demo.two_users)).
Proof.
  apply (flushSession_keeps_other_records Demo.env "u1" 2800000001 Demo.two_users
           ("u2~cust", "CUST1")).
  - vm_compute. do 2 right. left.
  - reflexivity.
  - vm_compute. discriminate.
Defined.

(** X15. When the records of the scan hold no customer key, the session is
    dropped: [flushSession] returns, every record of the scan is deleted
    and nothing is written, the target is not called, no random number is
    drawn, [joined_sessions] stays, and the missing customer key is
    logged. *)
Theorem flushSession_missing_customer_key
    (env : Env) (uid : string) (t : Z) (st : State) :
  let records := scan_range uid (MDB.getFirstOrGreater uid (txn st)) in
  forallb (well_headed uid) records = true ->
  forallb (fun kv => negb (Str.endsWith kv.1 "~cust")) records = true ->
  exists st',
    flushSession env uid t st = Ok tt st' /\
    (forall kv, kv ∈ txn st' <-> kv ∈ txn st /\ kv.1 ∉ records.*1) /\
    stat_joined_sessions_ st' = stat_joined_sessions_ st /\
    rnd_ st' = rnd_ st /\
    last (log st') = Some (log_missing_customer_key uid).
Proof.
  intros records Hw Hnc.
  destruct (scan_returns uid _ (mkSession uid EmptyString []) st Hw)
    as (session & st1 & Hscan & _).
  pose proof (scan_no_cust uid _ _ _ _ _ Hscan Hnc) as Hck. simpl in Hck.
  pose proof (flushSession_scan_frame uid (MDB.getFirstOrGreater uid (txn st))
                (mkSession uid EmptyString []) st) as F.
  rewrite Hscan in F. destruct F as ((_ & _ & Hj & Hr) & _ & Htxn).
  unfold flushSession. rewrite Hscan, Hck. cbn [Str.length Nat.eqb].
  eexists. split; [reflexivity|]. simpl. split; [|split; [exact Hj|split; [exact Hr|]]].
  - intros kv. rewrite Htxn. apply elem_of_del_all.
  - apply last_snoc.
Qed.

Lemma flushSession_missing_customer_key_witness :
  let st := mkState ∅ 0 0 0 0 [] [("u1~q~0000000000000000", Demo.event_record 1000 "e1")] in
  let records := scan_range "u1" (MDB.getFirstOrGreater "u1" (txn st)) in
  exists st',
    flushSession Demo.env "u1" 2800000001 st = Ok tt st' /\
    (forall kv, kv ∈ txn st' <-> kv ∈ txn st /\ kv.1 ∉ records.*1) /\
    stat_joined_sessions_ st' = stat_joined_sessions_ st /\
    rnd_ st' = rnd_ st /\
    last (log st') = Some (log_missing_customer_key "u1").
Proof.
  intros st records.
  apply (flushSession_missing_customer_key Demo.env "u1" 2800000001 st).
  - vm_compute. reflexivity.
  - vm_compute. reflexivity.
Defined.

(** X16. In dry-run mode [flushSession] writes nothing and draws no random
    number, however it ends: every record of the store afterwards was
    there before. *)
Theorem flushSession_dry_run_writes_nothing
    (env : Env) (uid : string) (t : Z) (st : State) :
  dry_run_ env = true ->
  let st' := state_of (flushSession env uid t st) in
  (forall kv, kv ∈ txn st' -> kv ∈ txn st) /\ rnd_ st' = rnd_ st.
Proof.
  intros Hdry st'. subst st'. unfold flushSession.
  assert (H : let st1 := state_of (flushSession_scan uid
                 (MDB.getFirstOrGreater uid (txn st)) (mkSession uid EmptyString []) st) in
              (forall kv, kv ∈ txn st1 -> kv ∈ txn st) /\ rnd_ st1 = rnd_ st).
  { split.
    - intros kv. apply (scan_txn_any uid _ (mkSession uid EmptyString []) st kv).
    - apply (scan_txn_any uid _ (mkSession uid EmptyString []) st ("", "")). }
  destruct (flushSession_scan _ _ _ _) as [session st1|e st1]; simpl in *;
    [|exact H].
  destruct (Nat.eqb _ 0); [exact H|].
  unfold onSession. destruct (joinSession env session); [exact H|].
  rewrite Hdry. exact H.
Qed.

Lemma flushSession_dry_run_writes_nothing_witness :
  let st' := state_of (flushSession Demo2.env_dry_run "u1" 2800000001 Demo.two_users) in
  (forall kv, kv ∈ txn st' -> kv ∈ txn Demo.two_users) /\
  rnd_ st' = rnd_ Demo.two_users.
Proof.
  apply (flushSession_dry_run_writes_nothing Demo2.env_dry_run "u1" 2800000001
           Demo.two_users).
  reflexivity.
Defined.

(** ** More on [importTimeoutList] *)

Lemma update_flush_time_inv key ftime (m : gmap string Z) u d :
  update_flush_time key ftime m !! u = Some d ->
  m !! u = Some d \/ (u = key /\ d = ftime).
Proof.
  unfold update_flush_time, emplace.
  destruct (m !! key) as [old|] eqn:E.
  - destruct (old <? ftime); auto.
  - destruct (decide (key = u)) as [->|Hne].
    + rewrite lookup_insert_eq. intros [= <-]. now right.
    + rewrite lookup_insert_ne by exact Hne. auto.
Qed.

Section Bootstrap.
Variable env : Env.

(** However the loop ends, it has touched the deadline map only, and has
    kept the deadlines it found there. *)
Lemma importTimeoutList_loop_frame cursor : forall st,
  let st' := state_of (importTimeoutList_loop env cursor st) in
  txn st' = txn st /\
  stat_loglines_total_ st' = stat_loglines_total_ st /\
  stat_loglines_invalid_ st' = stat_loglines_invalid_ st /\
  stat_joined_sessions_ st' = stat_joined_sessions_ st /\
  rnd_ st' = rnd_ st /\ log st' = log st /\
  forall u d, sessions_flush_times_ st !! u = Some d ->
              sessions_flush_times_ st' !! u = Some d.
Proof.
  induction cursor as [|[key value] cursor IH]; intros st.
  - simpl. repeat split; auto.
  - cbn [importTimeoutList_loop].
    destruct (Str.beginsWith key "__"); [apply IH|].
    destruct (Str.endsWith key "~cust"); [apply IH|].
    destruct (Str.find key tilde) as [i|]; [|simpl; repeat split; auto].
    destruct (readVarUInt value) as [e|[time rest]]; [simpl; repeat split; auto|].
    match goal with
    | |- context [importTimeoutList_loop env cursor ?s] =>
        destruct (IH s) as (H1 & H2 & H3 & H4 & H5 & H6 & H7)
    end.
    simpl in *. repeat split; auto.
    intros u d Hu. apply H7. now apply update_flush_time_keeps.
Qed.

Lemma importTimeoutList_loop_covers cursor : forall st st' u kv,
  importTimeoutList_loop env cursor st = Ok tt st' ->
  kv ∈ cursor -> event_record_of u kv ->
  is_Some (sessions_flush_times_ st' !! u).
Proof.
  induction cursor as [|[key value] cursor IH]; intros st st' u kv Hloop Hin Hev;
    [now apply elem_of_nil in Hin|].
  cbn [importTimeoutList_loop] in Hloop.
  apply elem_of_cons in Hin as [->|Hin].
  - destruct Hev as (Hr & Hc & i & Hi & ->). simpl in *.
    rewrite Hr, Hc, Hi in Hloop.
    destruct (readVarUInt value) as [e|[time rest]]; [discriminate|].
    match type of Hloop with
    | importTimeoutList_loop env cursor ?s = _ =>
        pose proof (importTimeoutList_loop_frame cursor s) as F
    end.
    rewrite Hloop in F. simpl in F. destruct F as (_ & _ & _ & _ & _ & _ & F).
    eexists. apply F. apply update_flush_time_lookup.
  - destruct (Str.beginsWith key "__"); [eapply IH; eauto|].
    destruct (Str.endsWith key "~cust"); [eapply IH; eauto|].
    destruct (Str.find key tilde) as [i|]; [|discriminate].
    destruct (readVarUInt value) as [e|[time rest]]; [discriminate|].
    eapply IH; eauto.
Qed.

Lemma importTimeoutList_loop_provenance cursor : forall st st' u d,
  importTimeoutList_loop env cursor st = Ok tt st' ->
  sessions_flush_times_ st' !! u = Some d ->
  sessions_flush_times_ st !! u = Some d \/
  exists kv, kv ∈ cursor /\ event_record_of u kv /\ record_deadline env kv.2 = Some d.
Proof.
  induction cursor as [|[key value] cursor IH]; intros st st' u d Hloop Hd.
  - injection Hloop as <-. now left.
  - cbn [importTimeoutList_loop] in Hloop.
    assert (Hrest : forall st1,
               importTimeoutList_loop env cursor st1 = Ok tt st' ->
               sessions_flush_times_ st1 = sessions_flush_times_ st ->
               sessions_flush_times_ st !! u = Some d \/
               exists kv, kv ∈ (key, value) :: cursor /\ event_record_of u kv /\
                          record_deadline env kv.2 = Some d).
    { intros st1 H1 H2. destruct (IH _ _ _ _ H1 Hd) as [H|(kv & Hin & H)].
      - left. now rewrite <- H2.
      - right. exists kv. split; [now right | exact H]. }
    destruct (Str.beginsWith key "__") eqn:Hr; [now apply (Hrest st)|].
    destruct (Str.endsWith key "~cust") eqn:Hc; [now apply (Hrest st)|].
    destruct (Str.find key tilde) as [i|] eqn:Hi; [|discriminate].
    destruct (readVarUInt value) as [e|[time rest]] eqn:Hv; [discriminate|].
    destruct (IH _ _ _ _ Hloop Hd) as [H|(kv & Hin & H)].
    + simpl in H. apply update_flush_time_inv in H as [H|[-> ->]]; [now left|].
      right. exists (key, value). split; [now left|]. split.
      * split; [exact Hr|]. split; [exact Hc|]. now exists i.
      * unfold record_deadline. simpl. now rewrite Hv.
    + right. exists kv. split; [now right | exact H].
Qed.

End Bootstrap.

(** X17. A bootstrap that returns has left the store alone and has kept the
    deadlines that were there, and afterwards every event record of the
    store has its user in the deadline map. *)
Theorem importTimeoutList_covers (env : Env) (st st' : State) :
  importTimeoutList env st = Ok tt st' ->
  txn st' = txn st /\
  (forall u d, sessions_flush_times_ st !! u = Some d ->
               sessions_flush_times_ st' !! u = Some d) /\
  forall u kv, kv ∈ txn st -> event_record_of u kv ->
               is_Some (sessions_flush_times_ st' !! u).
Proof.
  unfold importTimeoutList, MDB.getFirst. intros Hloop.
  pose proof (importTimeoutList_loop_frame env (txn st) st) as F.
  rewrite Hloop in F. simpl in F. destruct F as (Ht & _ & _ & _ & _ & _ & Hk).
  split; [exact Ht|]. split; [exact Hk|].
  intros u kv Hin Hev. eapply importTimeoutList_loop_covers; eauto.
Qed.

Lemma importTimeoutList_covers_witness :
  let st := mkState ∅ 0 0 0 0 [] (txn Demo.two_users) in
  let st' := state_of (importTimeoutList Demo.env st) in
  txn st' = txn st /\
  (forall u d, sessions_flush_times_ st !! u = Some d ->
               sessions_flush_times_ st' !! u = Some d) /\
  forall u kv, kv ∈ txn st -> event_record_of u kv ->
               is_Some (sessions_flush_times_ st' !! u).
Proof.
  intros st st'.
  apply (importTimeoutList_covers Demo.env st st').
  vm_compute. reflexivity.
Defined.

(** X18. After a bootstrap that returns, every deadline of the map was there
    before or is the deadline of an event record of the store, that is
    (seconds of the record + idle timeout) * 10^6 as a [uint64_t], under
    the user the key of the record names; keys that begin with [__] or end
    with [~cust] give no deadline. *)
Theorem importTimeoutList_provenance
    (env : Env) (st st' : State) (u : string) (d : Z) :
  importTimeoutList env st = Ok tt st' ->
  sessions_flush_times_ st' !! u = Some d ->
  sessions_flush_times_ st !! u = Some d \/
  exists kv, kv ∈ txn st /\ event_record_of u kv /\ record_deadline env kv.2 = Some d.
Proof.
  unfold importTimeoutList, MDB.getFirst. apply importTimeoutList_loop_provenance.
Qed.

Lemma importTimeoutList_provenance_witness :
  let st := mkState ∅ 0 0 0 0 [] (txn Demo.two_users) in
  let st' := state_of (importTimeoutList Demo.env st) in
  sessions_flush_times_ st !! "u2" = Some 3300000000 \/
  exists kv, kv ∈ txn st /\ event_record_of "u2" kv /\
             record_deadline Demo.env kv.2 = Some 3300000000.
Proof.
  intros st st'.
  apply (importTimeoutList_provenance Demo.env st st' "u2" 3300000000).
  - vm_compute. reflexivity.
  - vm_compute. reflexivity.
Defined.

(** ** The dictionary *)

Lemma names_consistent :
  map_Forall (fun id name => pixel_param_ids_ pixel_params !! name = Some id)
             (pixel_param_names_ pixel_params).
Proof. apply (bool_decide_unpack _). vm_compute. exact I. Qed.

(** X19. The dictionary the constructor builds is one-to-one: a name has the
    id [id] exactly when [id] is a [uint32_t] that has this name. So a
    name that can be written can be read back, and two names never share
    an id. *)
Theorem pixel_params_one_to_one (name : string) (id : Z) :
  getPixelParamID name = inr id <->
  0 <= id < 2 ^ 32 /\ getPixelParamName id = inr name.
Proof.
  split.
  - apply getPixelParamID_inv.
  - intros [Hid Hn]. unfold getPixelParamName in Hn. unfold getPixelParamID.
    rewrite Z.mod_small in Hn by exact Hid.
    destruct (pixel_param_names_ pixel_params !! id) as [name'|] eqn:E;
      [|discriminate].
    injection Hn as ->. now rewrite (names_consistent _ _ E).
Qed.

Lemma pixel_params_agrees : dict_agrees pixel_params.
Proof.
  intros name id. split.
  - intros H. exact (proj2 (dict_consistent name id H)).
  - intros H. exact (names_consistent id name H).
Qed.

(** X20. Registering a name and an id that are both new keeps the two maps
    of a dictionary in agreement. *)
Theorem addPixelParamID_agrees (d : PixelParams) (param : string) (id : Z) :
  dict_agrees d ->
  pixel_param_ids_ d !! param = None ->
  pixel_param_names_ d !! id = None ->
  dict_agrees (addPixelParamID param id d).
Proof.
  intros Hd Hp Hi name i. unfold addPixelParamID. simpl.
  destruct (decide (param = name)) as [->|Hn], (decide (id = i)) as [->|Hne];
    rewrite ?lookup_insert_eq, ?lookup_insert_ne by assumption.
  - tauto.
  - split; [congruence|]. intros H%Hd. congruence.
  - split; [|congruence]. intros H%Hd. congruence.
  - apply Hd.
Qed.

Lemma addPixelParamID_agrees_witness :
  dict_agrees (addPixelParamID "dw_ab" 1 (mkPixelParams ∅ ∅)).
Proof.
  apply (addPixelParamID_agrees (mkPixelParams ∅ ∅) "dw_ab" 1).
  - intros name id. simpl. rewrite !lookup_empty. split; discriminate.
  - reflexivity.
  - reflexivity.
Defined.

(** X21. Registering a name a second time under another id is not detected
    and breaks the agreement: the name has the new id, and the old id
    still has the name. *)
Theorem addPixelParamID_again (d : PixelParams) (param : string) (old id : Z) :
  dict_agrees d ->
  pixel_param_ids_ d !! param = Some old ->
  old <> id ->
  let d' := addPixelParamID param id d in
  pixel_param_ids_ d' !! param = Some id /\
  pixel_param_names_ d' !! old = Some param /\
  ~ dict_agrees d'.
Proof.
  intros Hd Hp Hne d'. subst d'. unfold addPixelParamID. simpl.
  assert (Hold : <[id:=param]> (pixel_param_names_ d) !! old = Some param).
  { rewrite lookup_insert_ne by congruence. now apply Hd. }
  split; [apply lookup_insert_eq|]. split; [exact Hold|].
  intros Hagree. apply Hagree in Hold. simpl in Hold.
  rewrite lookup_insert_eq in Hold. congruence.
Qed.

Lemma addPixelParamID_again_witness :
  let d' := addPixelParamID "l" 3 pixel_params in
  pixel_param_ids_ d' !! "l" = Some 3 /\
  pixel_param_names_ d' !! 2 = Some "l" /\
  ~ dict_agrees d'.
Proof.
  apply (addPixelParamID_again pixel_params "l" 2 3).
  - exact pixel_params_agrees.
  - vm_compute. reflexivity.
  - lia.
Defined.

(** ** From the insert of one event to its envelope *)

Module PipelineFacts.

Lemma endsWith_append s suffix : Str.endsWith (s +:+ suffix) suffix = true.
Proof.
  induction s as [|c s' IH].
  - destruct suffix; simpl; [reflexivity|]. now rewrite Ascii.eqb_refl, String.eqb_refl.
  - cbn [String.append Str.endsWith]. rewrite IH. now destruct (String.eqb _ _).
Qed.

Lemma endsWith_inv s suffix :
  Str.endsWith s suffix = true -> exists pre, s = pre +:+ suffix.
Proof.
  induction s as [|c s' IH]; cbn [Str.endsWith].
  - destruct (String.eqb_spec EmptyString suffix) as [<-|]; [|discriminate].
    now exists EmptyString.
  - destruct (String.eqb_spec (String c s') suffix) as [<-|_].
    + now exists EmptyString.
    + intros [pre ->]%IH. now exists (String c pre).
Qed.

Lemma append_last_inj a : forall b (d e : ascii),
  a +:+ String d EmptyString = b +:+ String e EmptyString -> d = e.
Proof.
  induction a as [|c a' IH]; intros [|c' b'] d e; simpl.
  - now intros [= ->].
  - destruct b'; discriminate.
  - destruct a'; discriminate.
  - intros [= _ H]. now apply IH in H.
Qed.

(** A string that ends with [~cust] has [t] as its last byte. *)
Lemma endsWith_cust_last a d :
  Str.endsWith (a +:+ String d EmptyString) "~cust" = true -> d = "t"%char.
Proof.
  intros [pre H]%endsWith_inv.
  change (pre +:+ "~cust") with (pre +:+ ("~cus" +:+ String "t"%char EmptyString)) in H.
  rewrite <- append_assoc in H. now apply append_last_inj in H.
Qed.

Lemma hex_digit_not_t v : hex_digit (Z.land v 15) <> "t"%char.
Proof.
  assert (H : forallb (fun k => negb (Ascii.eqb (hex_digit (Z.of_nat k)) "t"))
                      (seq 0 16) = true) by (vm_compute; reflexivity).
  rewrite forallb_forall in H.
  assert (Hb : 0 <= Z.land v 15 < 16).
  { change 15 with (Z.ones 4). rewrite Z.land_ones by lia.
    apply Z.mod_pos_bound. lia. }
  specialize (H (Z.to_nat (Z.land v 15))). rewrite Z2Nat.id in H by lia.
  intros E. rewrite E in H. discriminate H. apply in_seq. lia.
Qed.

(** The key of an event does not end with [~cust]. *)
Lemma event_key_not_ends_cust prefix n v :
  Str.endsWith (prefix +:+ hex_digits (S n) v) "~cust" = false.
Proof.
  destruct (Str.endsWith _ _) eqn:E; [|reflexivity].
  cbn [hex_digits] in E. rewrite <- append_assoc in E.
  apply endsWith_cust_last in E. now apply hex_digit_not_t in E.
Qed.

Lemma set_txn_ext f g st : f (txn st) = g (txn st) -> set_txn f st = set_txn g st.
Proof. intros H. unfold set_txn. now rewrite H. Qed.

End PipelineFacts.

Import PipelineFacts.

(** The scan of a store that holds one event of user [u] and the customer
    key of [u], and nothing else. *)
Lemma scan_one_event u customer_key c hex_n hex_v buf time_s eid logline st :
  let evtype := String c EmptyString in
  let evkey := u +:+ "~" +:+ evtype +:+ "~" +:+ hex_digits (S hex_n) hex_v in
  EventRecord.decode buf = inr (time_s, eid, logline) ->
  txn st = MDB.put (u +:+ "~cust") customer_key [(evkey, buf)] ->
  flushSession_scan u (MDB.getFirstOrGreater u (txn st)) (mkSession u EmptyString []) st
  = Ok (mkSession u customer_key
          [mkEvent (wrap64 (time_s * kMicrosPerSecond)) evtype eid logline])
       (set_txn (fun _ => []) st).
Proof.
  intros evtype evkey Hdec Htxn.
  assert (Hbc : Str.beginsWith (u +:+ "~cust") u = true) by apply beginsWith_append.
  assert (Hbe : Str.beginsWith evkey u = true) by apply beginsWith_append.
  assert (Hec : Str.endsWith (u +:+ "~cust") "~cust" = true) by apply endsWith_append.
  assert (Hee : Str.endsWith evkey "~cust" = false).
  { unfold evkey. rewrite <- !append_assoc. apply event_key_not_ends_cust. }
  assert (Hd : Str.drop (Str.length u + 1) evkey
               = Some (evtype +:+ "~" +:+ hex_digits (S hex_n) hex_v))
    by apply drop_S_append.
  assert (Hne : evkey <> u +:+ "~cust") by now apply event_key_not_cust.
  assert (Hcstep : forall cursor session s,
             flushSession_scan u ((u +:+ "~cust", customer_key) :: cursor) session s
             = flushSession_scan u cursor (set_customer_key customer_key session)
                                 (set_txn (MDB.del (u +:+ "~cust")) s)).
  { intros. cbn [flushSession_scan]. now rewrite Hbc, Hec. }
  assert (Hempty : forall f, (forall kv, kv ∈ f (txn st) ->
                       kv ∈ txn st /\ kv.1 <> u +:+ "~cust" /\ kv.1 <> evkey) ->
                     f (txn st) = []).
  { intros f Hf. apply elem_of_nil_inv. intros kv Hin.
    apply Hf in Hin as (Hin & H1 & H2). rewrite Htxn in Hin.
    apply elem_of_put in Hin as [->|Hin]; [now apply H1|].
    apply list_elem_of_singleton in Hin as ->. now apply H2. }
  rewrite Htxn. cbn [MDB.put].
  destruct (Str.ltb (u +:+ "~cust") evkey).
  - cbn [MDB.getFirstOrGreater]. rewrite (beginsWith_not_ltb _ _ Hbc).
    rewrite Hcstep.
    rewrite (flushSession_scan_event u evkey buf [] _ _ time_s eid logline _ Hbe Hee Hd Hdec).
    cbn [flushSession_scan]. f_equal.
    change (set_txn (MDB.del evkey) (set_txn (MDB.del (u +:+ "~cust")) st))
      with (set_txn (fun s => MDB.del evkey (MDB.del (u +:+ "~cust") s)) st).
    apply set_txn_ext. apply (Hempty (fun s => MDB.del evkey (MDB.del (u +:+ "~cust") s))).
    intros kv [[Hin H1]%elem_of_del H2]%elem_of_del. auto.
  - destruct (String.eqb_spec (u +:+ "~cust") evkey) as [E|_]; [now symmetry in E|].
    cbn [MDB.getFirstOrGreater]. rewrite (beginsWith_not_ltb _ _ Hbe).
    rewrite (flushSession_scan_event u evkey buf _ _ _ time_s eid logline _ Hbe Hee Hd Hdec).
    rewrite Hcstep. cbn [flushSession_scan]. f_equal.
    change (set_txn (MDB.del (u +:+ "~cust")) (set_txn (MDB.del evkey) st))
      with (set_txn (fun s => MDB.del (u +:+ "~cust") (MDB.del evkey s)) st).
    apply set_txn_ext. apply (Hempty (fun s => MDB.del (u +:+ "~cust") (MDB.del evkey s))).
    intros kv [[Hin H1]%elem_of_del H2]%elem_of_del. auto.
Qed.

Lemma update_flush_time_empty key ftime :
  update_flush_time key ftime ∅ = {[key := ftime]}.
Proof.
  unfold update_flush_time, emplace. rewrite lookup_empty. apply insert_empty.
Qed.

(** X22. Outside dry-run mode, take one accepted line with a non-empty
    customer key, an event time that is a [uint64_t], registered parameter
    names, an event id and values whose sizes are [uint64_t]s (as the size
    of every [std::string] is), and a target that returns data for the
    session of this one event. Inserted into an empty store with no open session and followed
    by a flush at a stream time after its deadline, the line leaves exactly
    one record in the store: the envelope of a session of that user with the
    customer key of the line, the time of the event in whole seconds as the
    first-seen time and the data of the target. The envelope key is made
    of the two random numbers drawn after the one of the event key; no
    session stays open and one session is counted. *)
Theorem flush_after_insert_one_envelope
    (env : Env) (customer : string) (time : Z) (log_line : string)
    (st : State) (params : ParamList) (u eid evtype : string)
    (stream_time : Z) (session_data : string) :
  parseQueryString env log_line = inr params ->
  accepted_line env params u eid evtype ->
  0 <= time < 2 ^ 64 ->
  fits eid ->
  Forall (fun p => registered p.1 /\ fits p.2) (filter is_stored_param params) ->
  txn st = [] ->
  sessions_flush_times_ st = ∅ ->
  (0 < Str.length customer)%nat ->
  dry_run_ env = false ->
  wrap64 (time + kSessionIdleTimeoutSeconds env * kMicrosPerSecond) < stream_time ->
  let first_seen := wrap64 (time / kMicrosPerSecond * kMicrosPerSecond) in
  joinSession env
    (mkSession u customer
       [mkEvent first_seen evtype eid (filter is_stored_param params)])
  = inr session_data ->
  exists st1 st2,
    insertLogline env customer time log_line st = Ok tt st1 /\
    flush env stream_time st1 = Ok tt st2 /\
    txn st2
    = [("__sessionq-"
          +:+ hex_digits 16 (random64 env (S (rnd_ st)))
          +:+ hex_digits 16 (random64 env (S (S (rnd_ st)))),
        encode_envelope env (mkEnvelope customer u first_seen session_data))] /\
    sessions_flush_times_ st2 = ∅ /\
    stat_joined_sessions_ st2 = (stat_joined_sessions_ st + 1)%N.
Proof.
  intros Hparse Hacc Ht He Hall Htxn Hmap Hck Hdry Hdue first_seen Hjoin.
  assert (Hts : 0 <= time / kMicrosPerSecond < 2 ^ 64).
  { unfold kMicrosPerSecond. split.
    - apply Z.div_pos; lia.
    - apply Z.div_lt_upper_bound; lia. }
  destruct (decode_encode _ eid _ Hts He Hall) as (buf & Henc & Hdec).
  unfold insertLogline. rewrite Hparse.
  rewrite (insertLogline_try_accepted env _ _ _ _ _ _ _ Hacc).
  destruct Hacc as (_ & _ & _ & _ & _ & _ & Hlen & _).
  destruct evtype as [|c [|c' evtype']]; try discriminate Hlen. clear Hlen.
  unfold appendToSession. rewrite Henc. cbn [hex64 fst snd].
  eexists. eexists. split; [reflexivity|].
  unfold flush. cbn [sessions_flush_times_ set_txn set_rnd set_flush_times].
  change (sessions_flush_times_ (incr_loglines_total st))
    with (sessions_flush_times_ st).
  rewrite Hmap, update_flush_time_empty, map_to_list_singleton.
  cbn [flush_loop].
  apply Z.ltb_lt in Hdue. rewrite Hdue.
  unfold flushSession.
  match goal with
  | |- context [flushSession_scan u (MDB.getFirstOrGreater u (txn ?s)) _ ?s] =>
      rewrite (scan_one_event u customer c 15 (random64 env (rnd_ st)) buf
                 (time / kMicrosPerSecond) eid (filter is_stored_param params) s Hdec)
  end.
  2:{ cbn [txn set_txn set_rnd set_flush_times incr_loglines_total]. now rewrite Htxn. }
  cbn [customer_key]. destruct (Str.length customer) eqn:El; [lia|].
  cbn [Nat.eqb]. unfold onSession. fold first_seen. rewrite Hjoin, Hdry.
  cbn [firstSeenTime events map fold_left ev_time uid].
  cbn [hex128 flush_loop fst snd]. split; [reflexivity|].
  cbn -[hex_digits update_flush_time wrap64 String.append].
  rewrite Hmap, update_flush_time_empty, delete_singleton_eq.
  split; [reflexivity|]. split; reflexivity.
Qed.

Lemma flush_after_insert_one_envelope_witness :
  exists st1 st2,
    insertLogline Demo.env "CUST1" 1000000000 "c=u1~e1&e=q&v=3&qstr~en=hello" Demo.init
      = Ok tt st1 /\
    flush Demo.env 2800000001 st1 = Ok tt st2 /\
    txn st2
    = [("__sessionq-"
          +:+ hex_digits 16 (random64 Demo.env (S (rnd_ Demo.init)))
          +:+ hex_digits 16 (random64 Demo.env (S (S (rnd_ Demo.init)))),
        encode_envelope Demo.env
          (mkEnvelope "CUST1" "u1"
             (wrap64 (1000000000 / kMicrosPerSecond * kMicrosPerSecond)) "0001"))] /\
    sessions_flush_times_ st2 = ∅ /\
    stat_joined_sessions_ st2 = (stat_joined_sessions_ Demo.init + 1)%N.
Proof.
  apply (flush_after_insert_one_envelope Demo.env "CUST1" 1000000000
           "c=u1~e1&e=q&v=3&qstr~en=hello" Demo.init
           [("c", "u1~e1"); ("e", "q"); ("v", "3"); ("qstr~en", "hello")]
           "u1" "e1" "q" 2800000001 "0001").
  - vm_compute. reflexivity.
  - repeat split; try reflexivity; simpl; lia.
  - lia.
  - unfold fits. simpl. lia.
  - change (Forall (fun p => registered p.1 /\ fits p.2) [("qstr~en", "hello")]).
    apply Forall_cons. split; [|constructor].
    split; [exists 102; vm_compute; reflexivity | unfold fits; simpl; lia].
  - reflexivity.
  - reflexivity.
  - simpl. lia.
  - reflexivity.
  - vm_compute. reflexivity.
  - vm_compute. reflexivity.
Defined.
